(** * Pulse: an ICMP echo client (internal/icmp/icmp.go)

    A shallow embedding of the packet checksum, of host resolution, of the
    request builder, of the send/receive cycle and of the statistics of the
    [icmp] package, followed by the properties established about them. *)

From Stdlib Require Import ZArith List Bool Lia String.
From Stdlib Require Import Strings.Byte.
From Stdlib Require Import Floats.SpecFloat.
Import ListNotations.

Local Open Scope Z_scope.

(** ** Machine integers

    Go's [uint16], [uint32] and [int] (64 bits on the supported platforms) are
    integers of [Z] with the wrap-around of their arithmetic written out. *)

Definition u16 (z : Z) : Z := z mod 2 ^ 16.
Definition u32 (z : Z) : Z := z mod 2 ^ 32.

Definition minInt : Z := - 2 ^ 63.
Definition maxInt : Z := 2 ^ 63 - 1.

(** Two's complement wrap-around of a 64-bit signed result. *)
Definition int64 (z : Z) : Z := (z + 2 ^ 63) mod 2 ^ 64 - 2 ^ 63.

Definition bytes : Type := list byte.

(** [uint32(b)] for a byte [b]. *)
Definition u8 (b : byte) : Z := Z.of_N (Byte.to_N b).

(** [byte(z)]: the low eight bits. *)
Definition byte_of_Z (z : Z) : byte :=
  match Byte.of_N (Z.to_N (z mod 256)) with
  | Some b => b
  | None => x00
  end.

Definition len {A : Type} (l : list A) : Z := Z.of_nat (List.length l).

(** ** Checksum *)

(** The first loop of [Checksum]:
    [for i := 0; i < len(b)-1; i += 2 { sum += uint32(b[i])<<8 | uint32(b[i+1]) }].
    Each iteration consumes the two bytes at [i] and [i+1]; a last byte
    without a partner is left to the caller. *)
Fixpoint sumWords (b : bytes) (sum : Z) : Z :=
  match b with
  | hi :: lo :: rest =>
      sumWords rest (u32 (sum + Z.lor (Z.shiftl (u8 hi) 8) (u8 lo)))
  | _ => sum
  end.

(** [if len(b)%2 != 0 { sum += uint32(b[len(b)-1]) << 8 }]. *)
Definition padOdd (b : bytes) (sum : Z) : Z :=
  if negb (Z.rem (len b) 2 =? 0)
  then u32 (sum + Z.shiftl (u8 (last b x00)) 8)
  else sum.

(** [for sum>>16 != 0 { sum = (sum & 0xffff) + (sum >> 16) }], run for at
    most [fuel] tests of the loop condition; [None] when they do not suffice. *)
Fixpoint foldCarries (fuel : nat) (sum : Z) : option Z :=
  match fuel with
  | O => None
  | S fuel' =>
      if negb (Z.shiftr sum 16 =? 0)
      then foldCarries fuel' (u32 (Z.land sum 0xffff + Z.shiftr sum 16))
      else Some sum
  end.

(** [^uint16(sum)]. *)
Definition complement16 (sum : Z) : Z := u16 (Z.lnot (u16 sum)).

Definition ChecksumFuel (fuel : nat) (b : bytes) : option Z :=
  match foldCarries fuel (padOdd b (sumWords b 0)) with
  | Some sum => Some (complement16 sum)
  | None => None
  end.

(** A 32-bit sum needs at most two folds, hence three tests of the loop
    condition (lemma [ChecksumFuel_closed]: more fuel changes nothing). *)
Definition Checksum (b : bytes) : option Z := ChecksumFuel 3 b.

(** *** The RFC 1071 checksum, in the words of the specification *)

(** Successive big-endian 16-bit words; a trailing odd byte is the high byte
    of a word padded with zero. *)
Fixpoint beWords (b : bytes) : list Z :=
  match b with
  | hi :: lo :: rest => (256 * u8 hi + u8 lo) :: beWords rest
  | [hi] => [256 * u8 hi]
  | [] => []
  end.

(** The sum of the words, as a number. *)
Definition wordSum (b : bytes) : Z := fold_right Z.add 0 (beWords b).

(** "Repeatedly fold any bits above bit 15 back into the low 16 bits until
    none remain", for a sum of any size; [fuel] bounds the number of folds. *)
Fixpoint foldUntil (fuel : nat) (s : Z) : Z :=
  match fuel with
  | O => s
  | S fuel' =>
      if s <? 2 ^ 16 then s else foldUntil fuel' (s mod 2 ^ 16 + s / 2 ^ 16)
  end.

(** Every fold of a sum of more than 17 bits leaves fewer bits, so
    [log2 s + 1] folds are enough (lemma [foldAll_endAroundCarry]). *)
Definition foldAll (s : Z) : Z := foldUntil (S (Z.to_nat (Z.log2 s))) s.

(** The end-around-carry sum in closed form: [0] for [0], otherwise the
    representative of [s] modulo [2^16 - 1] in [1 .. 2^16 - 1]. *)
Definition endAroundCarry (s : Z) : Z :=
  if s =? 0 then 0 else (s - 1) mod 65535 + 1.

(** Sum, fold, complement within 16 bits. *)
Definition rfc1071 (b : bytes) : Z := 65535 - foldAll (wordSum b).

(** Bytes of a sequence of 16-bit words, high byte first. *)
Definition wordsToBytes (ws : list Z) : bytes :=
  flat_map (fun w => [byte_of_Z (Z.shiftr w 8); byte_of_Z w]) ws.

Definition rfcVector : list Z :=
  [0x4500; 0x0073; 0x0000; 0x4000; 0x4011; 0x0000; 0xc0a8; 0x0001; 0xc0a8; 0x00c7].

(** Modelled from the spec: the insertion of a checksum into the checksum
    field is not a function of the package.  The field is a 16-bit word of
    the message, at the byte offset [off], and holds the checksum high byte
    first; a message too short to have the field is left as it is. *)
Definition insertChecksumAt (off : nat) (b : bytes) (c : Z) : bytes :=
  if (off + 2 <=? List.length b)%nat
  then firstn off b ++ [byte_of_Z (Z.shiftr c 8); byte_of_Z c]
       ++ skipn (off + 2) b
  else b.

(** The field of an ICMP message is bytes 2 and 3 (see the layout documented
    above [buildRequest]). *)
Definition checksumOffset : nat := 2.

Definition insertChecksum (b : bytes) (c : Z) : bytes :=
  insertChecksumAt checksumOffset b c.

(** ** Outcomes of a call

    A Go call returns, panics (a run-time panic is never recovered in this
    program), or never returns because it waits on the network for ever. *)

Inductive outcome (A : Type) : Type :=
| Returns (a : A)
| Panics (msg : string)
| Blocks.

Arguments Returns {A} a.
Arguments Panics {A} msg.
Arguments Blocks {A}.

Definition bind {A B : Type} (m : outcome A) (k : A -> outcome B) : outcome B :=
  match m with
  | Returns a => k a
  | Panics msg => Panics msg
  | Blocks => Blocks
  end.

Notation "x <- m ;; k" := (bind m (fun x => k))
  (at level 61, m at next level, right associativity).

(** ** Errors

    The values of Go's [error] built by the package, around the errors that
    the operating system and the libraries report ([SysError]). *)

Inductive error : Type :=
| SysError (msg : string)
| ErrLookup (host : string) (err : error)   (* "lookup %q: %w" *)
| ErrNoUsableIP (host : string)             (* "no usable IP address for %q" *)
| ErrListen (err : error)                   (* "listen: %w (try running as root)" *)
| ErrBuild (err : error)                    (* "build packet: %w" *)
| ErrWrite (err : error).                   (* "write: %w" *)

(** ** Slices of bytes *)

(** The largest number of bytes that the allocator of Go accepts on the
    64-bit platforms ([maxAlloc] of the runtime, [1 << 48]). *)
Definition maxAlloc : Z := 2 ^ 48.

(** [make([]byte, n)]: panics for a negative length and for a length beyond
    [maxAlloc].  A smaller length that exhausts the memory of the machine
    ends the program with a fatal error; that is not modelled, and what is
    proved to return below is proved for lengths of at most [maxPayload]. *)
Definition make (n : Z) : outcome bytes :=
  if n <? 0 then Panics "makeslice: len out of range"
  else if maxAlloc <? n then Panics "makeslice: len out of range"
  else Returns (repeat x00 (Z.to_nat n)).

(** The largest payload of an Echo message that fits an IPv4 datagram:
    65535 bytes less the IP header of 20 and the ICMP header of 8. *)
Definition maxPayload : Z := 65507.

(** [b[:high]] for a slice whose capacity is its length, as [make] returns
    it: panics unless [0 <= high <= cap(b)]. *)
Definition sliceTo (b : bytes) (high : Z) : outcome bytes :=
  if (0 <=? high) && (high <=? len b)
  then Returns (firstn (Z.to_nat high) b)
  else Panics "slice bounds out of range".

Definition u64 (z : Z) : Z := z mod 2 ^ 64.

(** [binary.BigEndian.PutUint64]: the eight bytes written, high byte first. *)
Definition PutUint64 (v : Z) : bytes :=
  map (fun i => byte_of_Z (Z.shiftr v (8 * i))) [7; 6; 5; 4; 3; 2; 1; 0].

(** [binary.BigEndian.PutUint16] and [binary.BigEndian.Uint16]. *)
Definition PutUint16 (v : Z) : bytes := [byte_of_Z (Z.shiftr v 8); byte_of_Z v].
Definition Uint16 (hi lo : byte) : Z := Z.lor (Z.shiftl (u8 hi) 8) (u8 lo).

(** ** Addresses (package [net] of the Go library)

    A [net.IP] is a slice of 4 or 16 bytes; [None] stands for the nil slice
    that [To4] and [To16] return for "not an address of that family". *)

Definition IP : Type := bytes.

Definition v4InV6Prefix : bytes :=
  [x00; x00; x00; x00; x00; x00; x00; x00; x00; x00; xff; xff].

Definition isZeros (b : bytes) : bool :=
  forallb (fun x => Byte.eqb x x00) b.

Definition To4 (ip : IP) : option IP :=
  if len ip =? 4 then Some ip
  else if (len ip =? 16) && isZeros (firstn 10 ip)
          && Byte.eqb (nth 10 ip x00) xff && Byte.eqb (nth 11 ip x00) xff
       then Some (firstn 4 (skipn 12 ip))
       else None.

Definition To16 (ip : IP) : option IP :=
  if len ip =? 4 then Some (v4InV6Prefix ++ ip)
  else if len ip =? 16 then Some ip
  else None.

(** ** Messages (packages [golang.org/x/net/icmp], [ipv4], [ipv6])

    The parts of the library's types that the package reads or writes. *)

(** An [icmp.Type] is an [ipv4.ICMPType] or an [ipv6.ICMPType]; two values
    of the interface are equal when family and number are. *)
Inductive ICMPType : Type :=
| ICMPv4Type (t : Z)
| ICMPv6Type (t : Z).

Definition ICMPType_eqb (a b : ICMPType) : bool :=
  match a, b with
  | ICMPv4Type x, ICMPv4Type y => x =? y
  | ICMPv6Type x, ICMPv6Type y => x =? y
  | _, _ => false
  end.

Module ipv4.
Definition ICMPTypeEcho : ICMPType := ICMPv4Type 8.
Definition ICMPTypeEchoReply : ICMPType := ICMPv4Type 0.
End ipv4.

Module ipv6.
Definition ICMPTypeEchoRequest : ICMPType := ICMPv6Type 128.
Definition ICMPTypeEchoReply : ICMPType := ICMPv6Type 129.
End ipv6.

Module icmp.
Record Echo : Type := mkEcho { ID : Z; Seq : Z; Data : bytes }.

(** A [MessageBody] is an [*Echo] or a body of another kind. *)
Inductive MessageBody : Type :=
| EchoBody (e : Echo)
| OtherBody (raw : bytes).

(** [Body] is [None] for the nil interface. *)
Record Message : Type :=
  mkMessage { Type_ : ICMPType; Code : Z; Body : option MessageBody }.

(** The two functions of the library that the package calls.
    [Marshal m psh] is [m.Marshal(psh)] and [ParseMessage proto b] is
    [icmp.ParseMessage(proto, b)]; both return a value or an error. *)
Class Codec : Type := {
  Marshal : Message -> option bytes -> bytes + error;
  ParseMessage : Z -> bytes -> Message + error
}.
End icmp.

(** ** Constants *)

Definition ProtocolICMP : Z := 1.
Definition ProtocolICMPv6 : Z := 58.
Definition DefaultPayloadSize : Z := 56.

(** [time.Duration] counts nanoseconds in an [int64]. *)
Definition Second : Z := 1000000000.
Definition DefaultTimeout : Z := 3 * Second.

(** ** The session *)

Record Pinger : Type := mkPinger {
  Host : string;
  Count : Z;
  Interval : Z;
  Timeout : Z;
  PayloadSize : Z;
  Verbose : bool;
  id : Z;
  isIPv6 : bool;
  addr : option IP;
  network : string;
  sent : Z;
  received : Z;
  rtts : list Z
}.

(** [Error] is [None] for the nil error. *)
Record Result : Type := mkResult {
  Seq : Z;
  RTT : Z;
  Received : bool;
  Error : option error
}.

(** [NewPinger]; [pid] is the value of [os.Getpid()]. *)
Definition NewPinger (pid : Z) (host : string) : Pinger :=
  {| Host := host;
     Count := 4;
     Interval := Second;
     Timeout := DefaultTimeout;
     PayloadSize := DefaultPayloadSize;
     Verbose := false;
     id := Z.land pid 0xffff;
     isIPv6 := false;
     addr := None;
     network := "";
     sent := 0;
     received := 0;
     rtts := [] |}.

(** The assignments of [Resolve] to [p.addr], [p.network] and [p.isIPv6]. *)
Definition setTarget (p : Pinger) (a : IP) (net : string) (v6 : bool) : Pinger :=
  {| Host := Host p; Count := Count p; Interval := Interval p;
     Timeout := Timeout p; PayloadSize := PayloadSize p; Verbose := Verbose p;
     id := id p; isIPv6 := v6; addr := Some a; network := net;
     sent := sent p; received := received p; rtts := rtts p |}.

(** [p.sent++]. *)
Definition incSent (p : Pinger) : Pinger :=
  {| Host := Host p; Count := Count p; Interval := Interval p;
     Timeout := Timeout p; PayloadSize := PayloadSize p; Verbose := Verbose p;
     id := id p; isIPv6 := isIPv6 p; addr := addr p; network := network p;
     sent := int64 (sent p + 1); received := received p; rtts := rtts p |}.

(** [p.received++; p.rtts = append(p.rtts, rtt)]. *)
Definition recordReply (p : Pinger) (rtt : Z) : Pinger :=
  {| Host := Host p; Count := Count p; Interval := Interval p;
     Timeout := Timeout p; PayloadSize := PayloadSize p; Verbose := Verbose p;
     id := id p; isIPv6 := isIPv6 p; addr := addr p; network := network p;
     sent := sent p; received := int64 (received p + 1);
     rtts := rtts p ++ [rtt] |}.

(** The assignments of [main] to the exported fields after [NewPinger]. *)
Definition configure (p : Pinger) (count interval timeout size : Z)
    (verbose : bool) : Pinger :=
  {| Host := Host p; Count := count; Interval := interval;
     Timeout := timeout; PayloadSize := size; Verbose := verbose;
     id := id p; isIPv6 := isIPv6 p; addr := addr p; network := network p;
     sent := sent p; received := received p; rtts := rtts p |}.

(** *** Resolve *)

(** [for _, ip := range ips { if ip4 := ip.To4(); ip4 != nil { ...; return nil } }]:
    [Some] of the state at the [return], [None] when the loop ends. *)
Fixpoint resolveIPv4 (p : Pinger) (ips : list IP) : option Pinger :=
  match ips with
  | [] => None
  | ip :: rest =>
      match To4 ip with
      | Some ip4 => Some (setTarget p ip4 "ip4:icmp" false)
      | None => resolveIPv4 p rest
      end
  end.

(** [for _, ip := range ips { if ip.To16() != nil { ...; return nil } }]. *)
Fixpoint resolveIPv6 (p : Pinger) (ips : list IP) : option Pinger :=
  match ips with
  | [] => None
  | ip :: rest =>
      match To16 ip with
      | Some _ => Some (setTarget p ip "ip6:ipv6-icmp" true)
      | None => resolveIPv6 p rest
      end
  end.

(** [Resolve]; [LookupIP] is [net.LookupIP].  Returns the state and the
    error, [None] for nil. *)
Definition Resolve (LookupIP : string -> list IP + error) (p : Pinger)
    : Pinger * option error :=
  match LookupIP (Host p) with
  | inr err => (p, Some (ErrLookup (Host p) err))
  | inl ips =>
      match resolveIPv4 p ips with
      | Some p' => (p', None)
      | None =>
          match resolveIPv6 p ips with
          | Some p' => (p', None)
          | None => (p, Some (ErrNoUsableIP (Host p)))
          end
      end
  end.

(** *** buildRequest *)

(** [buildRequest]; [now] is the value of [time.Now().UnixNano()].  The
    write through [payload[:8]] lands in the first eight bytes of [payload]. *)
Definition buildRequest `{C : icmp.Codec} (now : Z) (p : Pinger) (seq : Z)
    : outcome (bytes + error) :=
  payload <- make (PayloadSize p) ;;
  _ <- sliceTo payload 8 ;;
  let payload := PutUint64 (u64 now) ++ skipn 8 payload in
  let msgType := if isIPv6 p then ipv6.ICMPTypeEchoRequest
                 else ipv4.ICMPTypeEcho in
  let msg := {| icmp.Type_ := msgType;
                icmp.Code := 0;
                icmp.Body := Some (icmp.EchoBody
                  {| icmp.ID := id p; icmp.Seq := seq; icmp.Data := payload |}) |} in
  Returns (icmp.Marshal msg None).

(** *** SendPing *)

(** What one call of [conn.ReadFrom(buf)] returns: an error (the deadline
    or another failure), or a datagram, with the value [since] that
    [time.Since(sendTime)] takes just after it. *)
Inductive ReadEvent : Type :=
| ReadError (err : error)
| ReadData (datagram : bytes) (since : Z).

(** The surroundings of one call of [SendPing]: the error of
    [icmp.ListenPacket] and of [conn.WriteTo] ([None] for nil), the clock
    read by [buildRequest], and the results of the successive reads.  A
    socket that delivers nothing more after [reads] leaves the call waiting. *)
Record World : Type := mkWorld {
  listen : option error;
  now : Z;
  write : option error;
  reads : list ReadEvent
}.

Definition bufSize : nat := 1500.

(** The receive loop [for { n, _, err := conn.ReadFrom(buf); ... }]; each
    [continue] is a recursive call on the remaining reads. *)
Fixpoint receive `{C : icmp.Codec} (p : Pinger) (seq : Z) (rs : list ReadEvent)
    : outcome (Pinger * Result) :=
  match rs with
  | [] => Blocks
  | ReadError _ :: _ =>
      Returns (p, {| Seq := seq; RTT := 0; Received := false; Error := None |})
  | ReadData datagram rtt :: rest =>
      let proto := if isIPv6 p then ProtocolICMPv6 else ProtocolICMP in
      match icmp.ParseMessage proto (firstn bufSize datagram) with
      | inr _ => receive p seq rest
      | inl msg =>
          let replyType := if isIPv6 p then ipv6.ICMPTypeEchoReply
                           else ipv4.ICMPTypeEchoReply in
          if negb (ICMPType_eqb (icmp.Type_ msg) replyType)
          then receive p seq rest
          else
            match icmp.Body msg with
            | Some (icmp.EchoBody echo) =>
                if negb (icmp.ID echo =? id p) || negb (icmp.Seq echo =? seq)
                then receive p seq rest
                else
                  Returns (recordReply p rtt,
                           {| Seq := seq; RTT := rtt; Received := true;
                              Error := None |})
            | _ => receive p seq rest
            end
      end
  end.

Definition SendPing `{C : icmp.Codec} (w : World) (p : Pinger) (seq : Z)
    : outcome (Pinger * Result) :=
  match listen w with
  | Some err =>
      Returns (p, {| Seq := seq; RTT := 0; Received := false;
                     Error := Some (ErrListen err) |})
  | None =>
      built <- buildRequest (now w) p seq ;;
      match built with
      | inr err =>
          Returns (p, {| Seq := seq; RTT := 0; Received := false;
                         Error := Some (ErrBuild err) |})
      | inl data =>
          match write w with
          | Some err =>
              Returns (p, {| Seq := seq; RTT := 0; Received := false;
                             Error := Some (ErrWrite err) |})
          | None => receive (incSent p) seq (reads w)
          end
      end
  end.

(** *** Statistics *)

(** Go's [float64] is the binary64 format of IEEE 754, with the operations
    of the standard library's executable specification of it. *)
Definition float64 : Type := spec_float.
Definition f64prec : Z := 53.
Definition f64emax : Z := 1024.

(** [float64(z)] for an integer [z]: the nearest binary64 number. *)
Definition float64_of_int (z : Z) : float64 :=
  binary_normalize f64prec f64emax z 0 false.

Definition f64div : float64 -> float64 -> float64 := SFdiv f64prec f64emax.
Definition f64mul : float64 -> float64 -> float64 := SFmul f64prec f64emax.
Definition f64zero : float64 := S754_zero false.

Module Stats.
Record t : Type := mk {
  Sent : Z;
  Received : Z;
  Lost : Z;
  Loss : float64;
  Min : Z;
  Max : Z;
  Avg : Z
}.
End Stats.

(** [for _, r := range p.rtts { total += r; if r < s.Min {...}; if r > s.Max {...} }]
    on the triple of [total], [s.Min] and [s.Max]. *)
Fixpoint statsLoop (rs : list Z) (total mn mx : Z) : Z * Z * Z :=
  match rs with
  | [] => (total, mn, mx)
  | r :: rest =>
      let total := int64 (total + r) in
      let mn := if r <? mn then r else mn in
      let mx := if r >? mx then r else mx in
      statsLoop rest total mn mx
  end.

Definition Statistics (p : Pinger) : Stats.t :=
  let lost := int64 (sent p - received p) in
  let loss :=
    if sent p >? 0
    then f64mul (f64div (float64_of_int lost) (float64_of_int (sent p)))
                (float64_of_int 100)
    else f64zero in
  match rtts p with
  | [] =>
      {| Stats.Sent := sent p; Stats.Received := received p;
         Stats.Lost := lost; Stats.Loss := loss;
         Stats.Min := 0; Stats.Max := 0; Stats.Avg := 0 |}
  | r0 :: _ =>
      let '(total, mn, mx) := statsLoop (rtts p) 0 r0 r0 in
      {| Stats.Sent := sent p; Stats.Received := received p;
         Stats.Lost := lost; Stats.Loss := loss;
         Stats.Min := mn; Stats.Max := mx;
         Stats.Avg := Z.quot total (len (rtts p)) |}
  end.

(** ** Sessions

    The calls that a client makes on one [Pinger], in order. *)
Inductive Call : Type :=
| CallConfigure (count interval timeout size : Z) (verbose : bool)
| CallResolve (LookupIP : string -> list IP + error)
| CallSendPing (w : World) (seq : Z)
| CallStatistics.

(** The state after the calls and the results of the [SendPing] calls among
    them, the first call first. *)
Fixpoint run `{C : icmp.Codec} (p : Pinger) (cs : list Call)
    : outcome (Pinger * list Result) :=
  match cs with
  | [] => Returns (p, [])
  | CallConfigure count interval timeout size verbose :: rest =>
      run (configure p count interval timeout size verbose) rest
  | CallResolve LookupIP :: rest =>
      run (fst (Resolve LookupIP p)) rest
  | CallSendPing w seq :: rest =>
      pr <- SendPing w p seq ;;
      prs <- run (fst pr) rest ;;
      Returns (fst prs, snd pr :: snd prs)
  | CallStatistics :: rest =>
      let _ := Statistics p in run p rest
  end.

(** The invariant of the counters. *)
Definition counters_ok (p : Pinger) : Prop :=
  len (rtts p) = received p /\ received p <= sent p.

(** Counting in a list of results. *)
Definition transmitted (r : Result) : bool :=
  match Error r with None => true | Some _ => false end.

Definition count (f : Result -> bool) (rs : list Result) : Z :=
  len (filter f rs).

Definition sumZ (l : list Z) : Z := fold_right Z.add 0 l.
Definition minimum (x : Z) (l : list Z) : Z := fold_right Z.min x l.
Definition maximum (x : Z) (l : list Z) : Z := fold_right Z.max x l.

(** ** A codec for the examples

    The library [golang.org/x/net/icmp] is not part of the repository.  The
    properties below hold for every codec; the examples run on this one,
    which lays out and reads Echo messages as the header documented above
    [buildRequest] describes them. *)

Definition typeNumber (t : ICMPType) : Z :=
  match t with ICMPv4Type n => n | ICMPv6Type n => n end.

Definition isEchoType (t : ICMPType) : bool :=
  match t with
  | ICMPv4Type n => (n =? 8) || (n =? 0)
  | ICMPv6Type n => (n =? 128) || (n =? 129)
  end.

Definition exampleMarshal (m : icmp.Message) (psh : option bytes) : bytes + error :=
  let body :=
    match icmp.Body m with
    | Some (icmp.EchoBody e) =>
        PutUint16 (icmp.ID e) ++ PutUint16 (icmp.Seq e) ++ icmp.Data e
    | Some (icmp.OtherBody raw) => raw
    | None => []
    end in
  let b := [byte_of_Z (typeNumber (icmp.Type_ m)); byte_of_Z (icmp.Code m); x00; x00]
           ++ body in
  match icmp.Type_ m, Checksum b with
  | ICMPv4Type _, Some c => inl (insertChecksum b c)
  | _, _ => inl b
  end.

Definition exampleParse (proto : Z) (b : bytes) : icmp.Message + error :=
  match b with
  | t :: c :: _ :: _ :: body =>
      if negb ((proto =? ProtocolICMP) || (proto =? ProtocolICMPv6))
      then inr (SysError "invalid protocol")
      else
        let ty := if proto =? ProtocolICMP then ICMPv4Type (u8 t)
                  else ICMPv6Type (u8 t) in
        if isEchoType ty then
          match body with
          | i1 :: i0 :: s1 :: s0 :: data =>
              inl {| icmp.Type_ := ty; icmp.Code := u8 c;
                     icmp.Body := Some (icmp.EchoBody
                       {| icmp.ID := Uint16 i1 i0; icmp.Seq := Uint16 s1 s0;
                          icmp.Data := data |}) |}
          | _ => inr (SysError "message too short")
          end
        else
          inl {| icmp.Type_ := ty; icmp.Code := u8 c;
                 icmp.Body := Some (icmp.OtherBody body) |}
  | _ => inr (SysError "message too short")
  end.

Definition exampleCodec : icmp.Codec :=
  {| icmp.Marshal := exampleMarshal; icmp.ParseMessage := exampleParse |}.

(** An echo reply as a responder would send it for the request [req]: the
    same bytes with the type [ty] of the reply. *)
Definition replyTo (ty : Z) (req : bytes) : bytes :=
  match req with
  | _ :: rest => byte_of_Z ty :: rest
  | [] => []
  end.

(** ** Notions used in the statements *)

Definition inInt (z : Z) : Prop := minInt <= z <= maxInt.

(** The protocol number and the Echo Reply type of the session's family. *)
Definition protocol (p : Pinger) : Z :=
  if isIPv6 p then ProtocolICMPv6 else ProtocolICMP.

Definition echoReplyType (p : Pinger) : ICMPType :=
  if isIPv6 p then ipv6.ICMPTypeEchoReply else ipv4.ICMPTypeEchoReply.

(** A datagram is a reply to the probe [seq] of the session [p]: what the
    1500-byte buffer holds of it parses, as an Echo message of the reply type
    of the family, with the identifier of the session and the sequence number
    of the probe. *)
Definition matching `{C : icmp.Codec} (p : Pinger) (seq : Z) (datagram : bytes) : Prop :=
  exists msg echo,
    icmp.ParseMessage (protocol p) (firstn bufSize datagram) = inl msg /\
    icmp.Type_ msg = echoReplyType p /\
    icmp.Body msg = Some (icmp.EchoBody echo) /\
    icmp.ID echo = id p /\
    icmp.Seq echo = seq.

(** A read that delivers a datagram that is no reply to the probe. *)
Definition noise `{C : icmp.Codec} (p : Pinger) (seq : Z) (e : ReadEvent) : Prop :=
  exists datagram since, e = ReadData datagram since /\ ~ matching p seq datagram.

(** The three shapes of the value that [SendPing] returns. *)
Definition failed (seq : Z) (err : error) : Result :=
  {| Seq := seq; RTT := 0; Received := false; Error := Some err |}.

Definition timedOut (seq : Z) : Result :=
  {| Seq := seq; RTT := 0; Received := false; Error := None |}.

Definition replied (seq rtt : Z) : Result :=
  {| Seq := seq; RTT := rtt; Received := true; Error := None |}.

(** The message that [buildRequest] hands to [Marshal] for a payload. *)
Definition echoRequest (p : Pinger) (seq : Z) (payload : bytes) : icmp.Message :=
  {| icmp.Type_ := if isIPv6 p then ipv6.ICMPTypeEchoRequest else ipv4.ICMPTypeEcho;
     icmp.Code := 0;
     icmp.Body := Some (icmp.EchoBody
       {| icmp.ID := id p; icmp.Seq := seq; icmp.Data := payload |}) |}.

(** Addresses by family, as [Resolve] tells them apart. *)
Definition isIPv4Addr (ip : IP) : Prop := To4 ip <> None.
Definition usableAddr (ip : IP) : Prop := To4 ip <> None \/ To16 ip <> None.

(** ** The rest of the package and its caller *)

(** *** Addr *)

(** [Addr]; [IPString] is [net.IP.String]. *)
Definition Addr (IPString : IP -> string) (p : Pinger) : string :=
  match addr p with
  | None => Host p
  | Some a => IPString a
  end.

(** *** The command line of [main] *)

(** [for i, arg := range args { if !strings.HasPrefix(arg, "-") { host = arg;
    remainingArgs = append(args[:i], args[i+1:]...); break } }]: [seen] is
    [args[:i]], and the result is [host] and [remainingArgs], the empty
    string and nil when the loop ends without a [break]. *)
Fixpoint findHost (seen args : list string) : string * list string :=
  match args with
  | [] => (EmptyString, [])
  | arg :: rest =>
      if negb (String.prefix "-" arg) then (arg, seen ++ rest)
      else findHost (seen ++ [arg]) rest
  end.

(** The start of [main] on [os.Args[1:]], up to the call of [flag.Parse]:
    [None] when the check [if host == ""] prints the usage and exits,
    otherwise the host and the arguments that [flag.Parse] is given. *)
Definition hostAndFlags (args : list string) : option (string * list string) :=
  let '(host, remainingArgs) := findHost [] args in
  if String.eqb host "" then None else Some (host, remainingArgs).

(** *** The probe loop of [main] *)

(** The loop of the goroutine of [main], from the sequence number [seq].
    Each iteration has its surroundings: the world of its [SendPing] call,
    and whether in the [select] after it the stop signal arrives before the
    interval has passed.  The results are those of the calls, in order (each
    is printed as it comes).  Surroundings that end before the loop does leave
    it running. *)
Fixpoint probeLoop `{C : icmp.Codec} (p : Pinger) (seq : Z)
    (env : list (World * bool)) : outcome (Pinger * list Result) :=
  if (Count p >=? 0) && (seq >? Count p) then Returns (p, [])
  else
    match env with
    | [] => Blocks
    | (w, stop) :: rest =>
        pr <- SendPing w p seq ;;
        let p1 := fst pr in
        let seq1 := int64 (seq + 1) in
        if ((Count p1 <? 0) || (seq1 <=? Count p1)) && stop
        then Returns (p1, [snd pr])
        else
          prs <- probeLoop p1 seq1 rest ;;
          Returns (fst prs, snd pr :: snd prs)
    end.

(** ** More notions used in the statements *)

(** The number that eight bytes hold, high byte first (what
    [binary.BigEndian.Uint64] reads). *)
Definition Uint64 (b : bytes) : Z :=
  fold_left (fun acc x => acc * 256 + u8 x) (firstn 8 b) 0.

(** The 16-bit word of two bytes, high byte first. *)
Definition beWord (hi lo : byte) : Z := 256 * u8 hi + u8 lo.

(** The sequence numbers [s], [s + 1], ... of [n] probes. *)
Fixpoint seqFrom (s : Z) (n : nat) : list Z :=
  match n with
  | O => []
  | S n' => s :: seqFrom (s + 1) n'
  end.

(** The calls of [SendPing] that the probe loop makes in given surroundings,
    from the sequence number [s]. *)
Fixpoint probeCalls (s : Z) (env : list (World * bool)) : list Call :=
  match env with
  | [] => []
  | (w, _) :: rest => CallSendPing w s :: probeCalls (s + 1) rest
  end.

(** The fields of a session that no probe changes. *)
Definition sameSettings (p q : Pinger) : Prop :=
  Host q = Host p /\ Count q = Count p /\ Interval q = Interval p /\
  Timeout q = Timeout p /\ PayloadSize q = PayloadSize p /\
  Verbose q = Verbose p /\ id q = id p /\ isIPv6 q = isIPv6 p /\
  addr q = addr p /\ network q = network p.

(** A codec that reads identifiers and sequence numbers from the 16-bit
    fields of the header, as [golang.org/x/net/icmp] does. *)
Definition reads16bit (C : icmp.Codec) : Prop :=
  forall proto b msg echo,
    icmp.ParseMessage proto b = inl msg ->
    icmp.Body msg = Some (icmp.EchoBody echo) ->
    0 <= icmp.ID echo < 2 ^ 16 /\ 0 <= icmp.Seq echo < 2 ^ 16.

(** An argument that [main] takes for a flag. *)
Definition isFlag (arg : string) : Prop := String.prefix "-" arg = true.

(** ** Example sessions and inputs *)

Definition exPinger : Pinger := NewPinger 4660 "example.org".

Definition exLookup (host : string) : list IP + error :=
  inl [[x20; x01; x0d; xb8; x00; x00; x00; x00; x00; x00; x00; x00; x00; x00; x00; x01];
       [xc0; x00; x02; x07]].

(** A request of the example session, its reply, and a late reply to an
    earlier probe. *)
Definition exRequest (seq : Z) : bytes :=
  match buildRequest (C := exampleCodec) 1000 exPinger seq with
  | Returns (inl data) => data
  | _ => []
  end.

Definition exReply : bytes := replyTo 0 (exRequest 2).
Definition exStale : bytes := replyTo 0 (exRequest 1).

Definition exDeadline : error := SysError "i/o timeout".

Definition exWorldReply : World :=
  {| listen := None; now := 1000; write := None;
     reads := [ReadData exStale 500; ReadData exReply 1200; ReadError exDeadline] |}.

Definition exWorldTimeout : World :=
  {| listen := None; now := 1000; write := None;
     reads := [ReadData exStale 500; ReadError exDeadline] |}.

Definition exWorldWriteFails : World :=
  {| listen := None; now := 1000;
     write := Some (SysError "sendto: network is unreachable");
     reads := [] |}.

Definition exWorldListenFails : World :=
  {| listen := Some (SysError "socket: operation not permitted"); now := 1000;
     write := None; reads := [] |}.

(** A socket on which the read fails at once, for another reason than the
    deadline, and one on which the deadline passes with nothing read. *)
Definition exWorldReadFails : World :=
  {| listen := None; now := 1000; write := None;
     reads := [ReadError (SysError "recvfrom: connection refused")] |}.

Definition exWorldSilent : World :=
  {| listen := None; now := 1000; write := None;
     reads := [ReadError exDeadline] |}.

(** The example session with the payload size set to 4, as by
    [pulse example.org -s 4]. *)
Definition exShortPinger : Pinger :=
  configure exPinger 4 Second DefaultTimeout 4 false.

(** A session of the example client: configuration, resolution, a probe
    that is answered, a probe that times out, a probe that cannot be written,
    and the statistics. *)
Definition exSession : list Call :=
  [CallConfigure 3 Second DefaultTimeout 56 false;
   CallResolve exLookup;
   CallSendPing exWorldReply 2;
   CallSendPing exWorldTimeout 2;
   CallSendPing exWorldWriteFails 3;
   CallStatistics].

Definition exSessionEnd : Pinger :=
  match run (C := exampleCodec) exPinger exSession with
  | Returns (p, _) => p
  | _ => exPinger
  end.

(** A hundred probes, all written, of which 93 are answered. *)
Definition exLossySession : list Call :=
  repeat (CallSendPing exWorldReply 2) 93
  ++ repeat (CallSendPing exWorldTimeout 2) 7.

(** The input on which the 32-bit accumulator of [Checksum] overflows:
    65538 words [0xffff]. *)
Definition longOnes : bytes := repeat xff (Z.to_nat 131076).

(** A probe beyond the 16 bits of the sequence field, and the reply that
    echoes its packet. *)
Definition exWorldEchoed : World :=
  {| listen := None; now := 1000; write := None;
     reads := [ReadData (replyTo 0 (exRequest 65538)) 1200;
               ReadError exDeadline] |}.

Definition exIPString (a : IP) : string := "192.0.2.7".

(** The surroundings of three iterations of the probe loop: no stop signal,
    and the three worlds of the example session. *)
Definition exLoopEnv : list (World * bool) :=
  [(exWorldReply, false); (exWorldTimeout, false); (exWorldWriteFails, false)].

(** The session after [main] has configured and resolved it. *)
Definition exConfigured : Pinger :=
  fst (Resolve exLookup (configure exPinger 3 Second DefaultTimeout 56 false)).

(** Surroundings in which the stop signal arrives after the second probe. *)
Definition exStoppedEnv : list (World * bool) :=
  [(exWorldTimeout, false); (exWorldTimeout, true); (exWorldTimeout, false)].

Definition exEndless : Pinger :=
  fst (Resolve exLookup (configure exPinger (-1) Second DefaultTimeout 56 false)).

Definition exLoopEnd : Pinger :=
  match probeLoop (C := exampleCodec) exConfigured 1 exLoopEnv with
  | Returns (p, _) => p
  | _ => exPinger
  end.

Definition exLoopResults : list Result :=
  [replied 1 500; timedOut 2;
   failed 3 (ErrWrite (SysError "sendto: network is unreachable"))].

Definition exStoppedEnd : Pinger :=
  match probeLoop (C := exampleCodec) exEndless 1 exStoppedEnv with
  | Returns (p, _) => p
  | _ => exPinger
  end.

(** ** The model at work *)

Example Checksum_rfc_vector_ex : Checksum (wordsToBytes rfcVector) = Some 0xb861.
Proof. vm_compute. reflexivity. Qed.

Example Checksum_odd_ex : Checksum [x01; x02; x03] = Some (65535 - (0x0102 + 0x0300)).
Proof. vm_compute. reflexivity. Qed.

(** The vector is an IP header whose checksum field, the word at byte 10,
    is zero; with the checksum inserted there the header verifies. *)
Example Checksum_rfc_vector_verify_ex :
  Checksum (insertChecksumAt 10 (wordsToBytes rfcVector) 0xb861) = Some 0.
Proof. vm_compute. reflexivity. Qed.

Example Resolve_ex :
  let '(p, e) := Resolve exLookup exPinger in
  e = None /\ addr p = Some [xc0; x00; x02; x07] /\ isIPv6 p = false.
Proof. vm_compute. auto. Qed.

Example buildRequest_ex :
  match buildRequest (C := exampleCodec) 1000 exPinger 1 with
  | Returns (inl data) => len data = 64 /\ Checksum data = Some 0
  | _ => False
  end.
Proof. vm_compute. auto. Qed.

Example Loss_ex :
  Stats.Loss (Statistics (configure exPinger 4 0 0 56 false)) = f64zero /\
  float64_of_int 25 =
    f64mul (f64div (float64_of_int 1) (float64_of_int 4)) (float64_of_int 100).
Proof. vm_compute. auto. Qed.

Example SendPing_reply_ex :
  SendPing (C := exampleCodec) exWorldReply exPinger 2
  = Returns (recordReply (incSent exPinger) 1200, replied 2 1200).
Proof. vm_compute. reflexivity. Qed.

Example SendPing_timeout_ex :
  SendPing (C := exampleCodec) exWorldTimeout exPinger 2
  = Returns (incSent exPinger, timedOut 2).
Proof. vm_compute. reflexivity. Qed.

Example Statistics_ex :
  let s := Statistics exSessionEnd in
  Stats.Sent s = 2 /\ Stats.Received s = 1 /\ Stats.Lost s = 1 /\
  Stats.Loss s = float64_of_int 50 /\
  Stats.Min s = 1200 /\ Stats.Max s = 1200 /\ Stats.Avg s = 1200.
Proof. vm_compute. repeat split. Qed.
(** ** Arithmetic of the checksum *)

Lemma u8_range (b : byte) : 0 <= u8 b < 256.
Proof.
  unfold u8. pose proof (Byte.to_N_bounded b) as H. lia.
Qed.

Lemma lor_shiftl_8 (h l : Z) :
  0 <= h -> 0 <= l < 256 -> Z.lor (Z.shiftl h 8) l = 256 * h + l.
Proof.
  intros Hh Hl.
  assert (Hland : Z.land (Z.shiftl h 8) l = 0).
  { apply Z.bits_inj'. intros n Hn.
    rewrite Z.land_spec, Z.bits_0.
    destruct (Z.ltb_spec n 8) as [Hlt | Hge].
    - rewrite Z.shiftl_spec_low by lia. reflexivity.
    - assert (Z.testbit l n = false) as ->; [| apply andb_false_r].
      destruct (Z.eq_dec l 0) as [-> | Hnz]; [apply Z.bits_0 |].
      apply Z.bits_above_log2; [lia |].
      assert (Z.log2 l < 8); [| lia].
      apply Z.log2_lt_pow2; lia. }
  pose proof (Z.add_lor_land (Z.shiftl h 8) l) as H.
  rewrite Hland in H.
  assert (Z.lor (Z.shiftl h 8) l = Z.shiftl h 8 + l) as -> by lia.
  rewrite Z.shiftl_mul_pow2 by lia. change (2 ^ 8) with 256. lia.
Qed.

Lemma bytes_pair_ind (P : bytes -> Prop) :
  P [] -> (forall x, P [x]) -> (forall x y l, P l -> P (x :: y :: l)) ->
  forall l, P l.
Proof.
  intros H0 H1 H2.
  assert (forall l, P l /\ forall x, P (x :: l)) as H.
  { induction l as [| y l [IHl IHl']]; split; auto. }
  intro l. apply H.
Qed.

Lemma padOdd_cons2 (x y : byte) (l : bytes) (s : Z) :
  padOdd (x :: y :: l) s = padOdd l s.
Proof.
  unfold padOdd, len.
  replace (Z.of_nat (List.length (x :: y :: l)))
    with (Z.of_nat (List.length l) + 1 * 2) by (cbn [List.length]; lia).
  rewrite Z.rem_add by lia.
  destruct l as [| z l']; [reflexivity |].
  reflexivity.
Qed.

Lemma wordSum_nonneg (b : bytes) : 0 <= wordSum b.
Proof.
  induction b as [| x | x y l IH] using bytes_pair_ind; unfold wordSum in *;
    cbn [beWords fold_right];
    try pose proof (u8_range x); try pose proof (u8_range y); lia.
Qed.

(** The two summing steps compute the sum of the words modulo [2^32]. *)
Lemma sum_loop_wordSum (b : bytes) :
  forall acc, 0 <= acc < 2 ^ 32 ->
  padOdd b (sumWords b acc) = (acc + wordSum b) mod 2 ^ 32.
Proof.
  induction b as [| x | x y l IH] using bytes_pair_ind; intros acc Hacc.
  - unfold padOdd, wordSum. cbn. rewrite Z.add_0_r, Z.mod_small; lia.
  - unfold padOdd, wordSum, u32. cbn [sumWords beWords fold_right last].
    change (negb (Z.rem (len [x]) 2 =? 0)) with true. cbv iota.
    pose proof (u8_range x).
    rewrite Z.shiftl_mul_pow2 by lia. change (2 ^ 8) with 256.
    f_equal. lia.
  - rewrite padOdd_cons2. cbn [sumWords].
    pose proof (u8_range x). pose proof (u8_range y).
    rewrite lor_shiftl_8 by lia.
    rewrite IH by (unfold u32; apply Z.mod_pos_bound; lia).
    unfold u32, wordSum. cbn [beWords fold_right].
    rewrite Z.add_mod_idemp_l by lia. f_equal. lia.
Qed.

Lemma endAroundCarry_small (s : Z) : 0 <= s < 2 ^ 16 -> endAroundCarry s = s.
Proof.
  intros Hs. unfold endAroundCarry.
  destruct (Z.eqb_spec s 0) as [-> | Hnz]; [reflexivity |].
  rewrite Z.mod_small; lia.
Qed.

Lemma endAroundCarry_range (s : Z) : 0 <= s -> 0 <= endAroundCarry s < 2 ^ 16.
Proof.
  intros Hs. unfold endAroundCarry.
  destruct (Z.eqb_spec s 0); [lia |].
  pose proof (Z.mod_pos_bound (s - 1) 65535). lia.
Qed.

(** One fold preserves the end-around-carry sum. *)
Lemma endAroundCarry_fold (s : Z) :
  2 ^ 16 <= s -> endAroundCarry (s mod 2 ^ 16 + s / 2 ^ 16) = endAroundCarry s.
Proof.
  intros Hs. unfold endAroundCarry.
  pose proof (Z.mod_pos_bound s (2 ^ 16)).
  assert (1 <= s / 2 ^ 16) by (apply Z.div_le_lower_bound; lia).
  destruct (Z.eqb_spec (s mod 2 ^ 16 + s / 2 ^ 16) 0); [lia |].
  destruct (Z.eqb_spec s 0); [lia |].
  f_equal.
  rewrite (Z.div_mod s (2 ^ 16)) at 3 by lia.
  replace (2 ^ 16 * (s / 2 ^ 16) + s mod 2 ^ 16 - 1)
    with (s mod 2 ^ 16 + s / 2 ^ 16 - 1 + (s / 2 ^ 16) * 65535) by lia.
  rewrite Z.mod_add by lia. reflexivity.
Qed.

Lemma foldUntil_small (fuel : nat) (s : Z) :
  0 <= s < 2 ^ 16 -> foldUntil fuel s = endAroundCarry s.
Proof.
  intros Hs. rewrite endAroundCarry_small by assumption.
  destruct fuel as [| fuel]; cbn [foldUntil]; [reflexivity |].
  destruct (Z.ltb_spec s (2 ^ 16)); [reflexivity | lia].
Qed.

(** A sum of [32 + k] bits is folded completely by [2 + k] folds. *)
Lemma foldUntil_bits (k : nat) :
  forall (fuel : nat) (s : Z),
    0 <= s < 2 ^ (32 + Z.of_nat k) -> (2 + k <= fuel)%nat ->
    foldUntil fuel s = endAroundCarry s.
Proof.
  induction k as [| k IH]; intros fuel s Hs Hfuel.
  - simpl in Hs.
    destruct (Z.ltb_spec s (2 ^ 16)) as [Hlt | Hge];
      [apply foldUntil_small; lia |].
    destruct fuel as [| [| fuel]]; try lia.
    cbn [foldUntil].
    destruct (Z.ltb_spec s (2 ^ 16)) as [| _]; [lia |].
    rewrite <- (endAroundCarry_fold s) by lia.
    pose proof (Z.mod_pos_bound s (2 ^ 16)).
    assert (1 <= s / 2 ^ 16 < 2 ^ 16).
    { split; [apply Z.div_le_lower_bound | apply Z.div_lt_upper_bound]; lia. }
    set (s1 := s mod 2 ^ 16 + s / 2 ^ 16) in *.
    destruct (Z.ltb_spec s1 (2 ^ 16)) as [Hlt1 | Hge1];
      [symmetry; apply endAroundCarry_small; lia |].
    rewrite <- (endAroundCarry_fold s1) by lia.
    assert (s1 / 2 ^ 16 = 1) as Hq.
    { symmetry. apply (Z.div_unique s1 (2 ^ 16) 1 (s1 - 2 ^ 16)); lia. }
    assert (s1 mod 2 ^ 16 = s1 - 2 ^ 16) as Hr.
    { symmetry. apply (Z.mod_unique s1 (2 ^ 16) 1 (s1 - 2 ^ 16)); lia. }
    rewrite Hq, Hr. apply foldUntil_small. lia.
  - destruct (Z.ltb_spec s (2 ^ 16)) as [Hlt | Hge];
      [apply foldUntil_small; lia |].
    destruct fuel as [| fuel]; [lia |].
    cbn [foldUntil].
    destruct (Z.ltb_spec s (2 ^ 16)) as [| _]; [lia |].
    rewrite <- (endAroundCarry_fold s) by lia.
    apply IH; [| lia].
    pose proof (Z.mod_pos_bound s (2 ^ 16)).
    replace (32 + Z.of_nat (S k)) with (16 + (17 + Z.of_nat k)) in Hs by lia.
    rewrite Z.pow_add_r in Hs by lia.
    assert (0 <= s / 2 ^ 16 < 2 ^ (17 + Z.of_nat k)).
    { split; [apply Z.div_pos | apply Z.div_lt_upper_bound]; lia. }
    replace (32 + Z.of_nat k) with (1 + (16 + Z.of_nat k) + 15) by lia.
    assert (2 ^ 16 <= 2 ^ (17 + Z.of_nat k)) by (apply Z.pow_le_mono_r; lia).
    replace (1 + (16 + Z.of_nat k) + 15) with (15 + (17 + Z.of_nat k)) by lia.
    rewrite Z.pow_add_r by lia.
    assert (0 < 2 ^ (17 + Z.of_nat k)) by lia.
    nia.
Qed.

(** The fold "until none remain" is the end-around-carry sum, at any size. *)
Lemma foldAll_endAroundCarry (s : Z) : 0 <= s -> foldAll s = endAroundCarry s.
Proof.
  intros Hs. unfold foldAll.
  destruct (Z.ltb_spec s (2 ^ 16)) as [Hlt | Hge];
    [apply foldUntil_small; lia |].
  assert (16 <= Z.log2 s) by (apply Z.log2_le_pow2; lia).
  pose proof (Z.log2_spec s ltac:(lia)) as [_ Hup].
  apply (foldUntil_bits (Z.to_nat (Z.log2 s - 16))); [| lia].
  split; [lia |].
  eapply Z.lt_le_trans; [exact Hup |].
  apply Z.pow_le_mono_r; lia.
Qed.

(** The loop of the code: within 32 bits three tests always suffice, and more
    fuel changes nothing. *)
Lemma foldCarries_foldUntil (fuel : nat) :
  forall s, 0 <= s < 2 ^ 32 -> foldUntil fuel s < 2 ^ 16 ->
  foldCarries (S fuel) s = Some (foldUntil fuel s).
Proof.
  induction fuel as [| fuel IH]; intros s Hs Hdone.
  - cbn [foldUntil] in *. cbn [foldCarries].
    rewrite Z.shiftr_div_pow2, Z.div_small by lia. reflexivity.
  - cbn [foldUntil] in Hdone |- *. rewrite (eq_refl : foldCarries (S (S fuel)) s =
      if negb (Z.shiftr s 16 =? 0)
      then foldCarries (S fuel) (u32 (Z.land s 0xffff + Z.shiftr s 16))
      else Some s).
    rewrite Z.shiftr_div_pow2 by lia.
    change 65535 with (Z.ones 16). rewrite Z.land_ones by lia.
    pose proof (Z.mod_pos_bound s (2 ^ 16)).
    destruct (Z.ltb_spec s (2 ^ 16)) as [Hlt | Hge].
    + rewrite Z.div_small by lia. reflexivity.
    + assert (1 <= s / 2 ^ 16 < 2 ^ 16).
      { split; [apply Z.div_le_lower_bound | apply Z.div_lt_upper_bound]; lia. }
      destruct (Z.eqb_spec (s / 2 ^ 16) 0) as [| _]; [lia |].
      cbn [negb]. unfold u32. rewrite Z.mod_small by lia.
      apply IH; [lia | exact Hdone].
Qed.

Lemma foldCarries_closed (fuel : nat) (s : Z) :
  (3 <= fuel)%nat -> 0 <= s < 2 ^ 32 ->
  foldCarries fuel s = Some (endAroundCarry s).
Proof.
  intros Hfuel Hs.
  destruct fuel as [| fuel]; [lia |].
  assert (foldUntil fuel s = endAroundCarry s) as Heq
    by (apply (foldUntil_bits 0); simpl; lia).
  rewrite <- Heq. apply foldCarries_foldUntil; [lia |].
  rewrite Heq. apply endAroundCarry_range. lia.
Qed.

Lemma complement16_closed (v : Z) : 0 <= v < 2 ^ 16 -> complement16 v = 65535 - v.
Proof.
  intros Hv. unfold complement16, u16.
  rewrite (Z.mod_small v) by lia.
  unfold Z.lnot. 
  symmetry. apply (Z.mod_unique _ _ (-1)); lia.
Qed.

(** What [Checksum] computes, in closed form, for every input. *)
Lemma ChecksumFuel_closed (fuel : nat) (b : bytes) :
  (3 <= fuel)%nat ->
  ChecksumFuel fuel b = Some (65535 - endAroundCarry (wordSum b mod 2 ^ 32)).
Proof.
  intros Hfuel. unfold ChecksumFuel.
  rewrite sum_loop_wordSum by lia. rewrite Z.add_0_l.
  pose proof (Z.mod_pos_bound (wordSum b) (2 ^ 32)).
  rewrite foldCarries_closed by lia.
  rewrite complement16_closed by (apply endAroundCarry_range; lia).
  reflexivity.
Qed.

Lemma Checksum_closed (b : bytes) :
  Checksum b = Some (65535 - endAroundCarry (wordSum b mod 2 ^ 32)).
Proof. apply ChecksumFuel_closed. lia. Qed.

Lemma wordSum_bound (b : bytes) : wordSum b <= 65535 * ((len b + 1) / 2).
Proof.
  induction b as [| x | x y l IH] using bytes_pair_ind.
  - unfold wordSum, len. cbn. lia.
  - unfold wordSum, len. cbn [beWords fold_right List.length].
    change ((Z.of_nat 1 + 1) / 2) with 1. pose proof (u8_range x). lia.
  - unfold wordSum, len in *. cbn [beWords fold_right List.length].
    replace (Z.of_nat (S (S (List.length l))) + 1)
      with (Z.of_nat (List.length l) + 1 + 1 * 2) by lia.
    rewrite Z.div_add by lia.
    pose proof (u8_range x). pose proof (u8_range y). lia.
Qed.

Lemma wordSum_fits (b : bytes) : len b <= 131074 -> 0 <= wordSum b < 2 ^ 32.
Proof.
  intros Hlen. split; [apply wordSum_nonneg |].
  pose proof (wordSum_bound b) as Hb.
  assert ((len b + 1) / 2 < 65538)
    by (apply Z.div_lt_upper_bound; lia).
  lia.
Qed.

(** C2, as stated, fails on a long input: the sum of the words of
    [longOnes] exceeds 32 bits, the accumulator drops the carry out of bit 31,
    and [Checksum] returns 1 where the RFC 1071 checksum is 0. *)
Lemma Checksum_long_input_differs :
  Checksum longOnes = Some 1 /\ rfc1071 longOnes = 0 /\
  Checksum longOnes <> Some (rfc1071 longOnes).
Proof.
  assert (Checksum longOnes = Some 1) as H1 by (vm_compute; reflexivity).
  assert (rfc1071 longOnes = 0) as H2 by (vm_compute; reflexivity).
  split; [exact H1 | split; [exact H2 |]].
  rewrite H1, H2. discriminate.
Qed.

(** C2 (amended): [Checksum] returns, for every input, the complement of the
    folded sum of the big-endian words taken modulo [2^32]; for an input of
    at most 131074 bytes that is the RFC 1071 checksum, and the checksum of
    the RFC's worked example is [0xb861]. *)
Theorem Checksum_rfc1071 (b : bytes) :
  Checksum b = Some (65535 - foldAll (wordSum b mod 2 ^ 32)) /\
  (len b <= 131074 -> Checksum b = Some (rfc1071 b)) /\
  Checksum (wordsToBytes rfcVector) = Some 0xb861.
Proof.
  pose proof (Z.mod_pos_bound (wordSum b) (2 ^ 32)) as Hmod.
  split; [| split].
  - rewrite Checksum_closed, foldAll_endAroundCarry by lia. reflexivity.
  - intros Hlen. pose proof (wordSum_fits b Hlen) as Hfit.
    rewrite Checksum_closed. unfold rfc1071.
    rewrite foldAll_endAroundCarry by lia.
    rewrite Z.mod_small by lia. reflexivity.
  - vm_compute. reflexivity.
Qed.

Lemma Checksum_rfc1071_witness :
  Checksum [x45; x00; x00; x73; x01] = Some (rfc1071 [x45; x00; x00; x73; x01]).
Proof.
  apply (Checksum_rfc1071 [x45; x00; x00; x73; x01]).
  vm_compute. discriminate.
Defined.

(** *** Insert, then verify *)

Lemma u8_byte_of_Z (z : Z) : u8 (byte_of_Z z) = z mod 256.
Proof.
  unfold u8, byte_of_Z.
  pose proof (Z.mod_pos_bound z 256) as Hr.
  destruct (Byte.of_N (Z.to_N (z mod 256))) as [b |] eqn:Hof.
  - apply Byte.to_of_N in Hof. rewrite Hof. lia.
  - apply Byte.of_N_None_iff in Hof. lia.
Qed.

Lemma beWord_PutUint16 (c : Z) :
  0 <= c < 2 ^ 16 ->
  256 * u8 (byte_of_Z (Z.shiftr c 8)) + u8 (byte_of_Z c) = c.
Proof.
  intros Hc. rewrite !u8_byte_of_Z, Z.shiftr_div_pow2 by lia.
  change (2 ^ 8) with 256.
  assert (0 <= c / 256 < 256).
  { split; [apply Z.div_pos | apply Z.div_lt_upper_bound]; lia. }
  rewrite (Z.mod_small (c / 256)) by lia.
  pose proof (Z.div_mod c 256). lia.
Qed.

(** Adding the checksum to the sum it was computed from gives a sum that
    folds to [0xffff], also when the 32-bit accumulator had wrapped. *)
Lemma endAroundCarry_verify (x : Z) :
  0 <= x < 2 ^ 32 ->
  endAroundCarry ((x + (65535 - endAroundCarry x)) mod 2 ^ 32) = 65535.
Proof.
  intros Hx. unfold endAroundCarry at 2.
  destruct (Z.eqb_spec x 0) as [-> | Hnz]; [vm_compute; reflexivity |].
  pose proof (Z.div_mod (x - 1) 65535 ltac:(lia)) as Hdm.
  pose proof (Z.mod_pos_bound (x - 1) 65535 ltac:(lia)) as Hr.
  assert (0 <= (x - 1) / 65535 <= 65536).
  { split; [apply Z.div_pos; lia |].
    apply Z.lt_succ_r. apply Z.div_lt_upper_bound; lia. }
  replace (x + (65535 - ((x - 1) mod 65535 + 1)))
    with (65535 * ((x - 1) / 65535 + 1)) by lia.
  rewrite Z.mod_small by lia.
  unfold endAroundCarry.
  destruct (Z.eqb_spec (65535 * ((x - 1) / 65535 + 1)) 0); [lia |].
  replace (65535 * ((x - 1) / 65535 + 1) - 1)
    with (65534 + ((x - 1) / 65535) * 65535) by lia.
  rewrite Z.mod_add by lia. reflexivity.
Qed.

(** The words of a message split at an even offset. *)
Lemma wordSum_app_even (k : nat) :
  forall pre rest : bytes,
    List.length pre = (2 * k)%nat ->
    wordSum (pre ++ rest) = wordSum pre + wordSum rest.
Proof.
  induction k as [| k IH]; intros pre rest Hlen.
  - destruct pre; [reflexivity | discriminate].
  - destruct pre as [| x [| y pre]]; try (cbn in Hlen; lia).
    cbn [List.length] in Hlen.
    specialize (IH pre rest ltac:(lia)).
    unfold wordSum in *. cbn [app beWords fold_right]. rewrite IH. lia.
Qed.

(** A message with a zero checksum field at the even offset [2 * k]. *)
Lemma zero_field_split (k : nat) (b : bytes) :
  nth_error b (2 * k) = Some x00 -> nth_error b (2 * k + 1) = Some x00 ->
  exists pre post,
    b = pre ++ x00 :: x00 :: post /\ List.length pre = (2 * k)%nat.
Proof.
  intros Hhi Hlo.
  destruct (nth_error_split b (2 * k) Hhi) as (pre & tl & -> & Hlen).
  rewrite nth_error_app2 in Hlo by lia.
  replace (2 * k + 1 - List.length pre)%nat with 1%nat in Hlo by lia.
  destruct tl as [| z post]; [discriminate |].
  cbn in Hlo. injection Hlo as ->.
  exists pre, post. auto.
Qed.

Lemma insertChecksumAt_split (pre post : bytes) (c : Z) :
  insertChecksumAt (List.length pre) (pre ++ x00 :: x00 :: post) c
  = pre ++ byte_of_Z (Z.shiftr c 8) :: byte_of_Z c :: post.
Proof.
  unfold insertChecksumAt.
  assert (List.length pre + 2 <= List.length (pre ++ x00 :: x00 :: post))%nat
    as Hlen by (rewrite length_app; cbn [List.length]; lia).
  apply Nat.leb_le in Hlen. rewrite Hlen.
  rewrite firstn_app, firstn_all, Nat.sub_diag. cbn [firstn].
  rewrite app_nil_r. f_equal.
  rewrite skipn_app, skipn_all2 by lia.
  replace (List.length pre + 2 - List.length pre)%nat with 2%nat by lia.
  reflexivity.
Qed.

(** C8: for every message whose checksum field (the two bytes at an even
    offset; bytes 2 and 3 in an ICMP message) is zero, [Checksum] returns
    a value, and the message with that value inserted in the field has
    checksum zero. *)
Theorem Checksum_insert_verify (k : nat) (b : bytes)
    (Hhi : nth_error b (2 * k) = Some x00)
    (Hlo : nth_error b (2 * k + 1) = Some x00) :
  exists c, Checksum b = Some c /\
            Checksum (insertChecksumAt (2 * k) b c) = Some 0.
Proof.
  destruct (zero_field_split k b Hhi Hlo) as (pre & post & -> & Hlen).
  set (m := pre ++ x00 :: x00 :: post).
  pose proof (Z.mod_pos_bound (wordSum m) (2 ^ 32) ltac:(lia)) as Hx.
  pose proof (endAroundCarry_range (wordSum m mod 2 ^ 32) ltac:(lia)) as He.
  set (c := 65535 - endAroundCarry (wordSum m mod 2 ^ 32)) in *.
  exists c. split; [apply Checksum_closed |].
  assert (wordSum (insertChecksumAt (2 * k) m c) = wordSum m + c) as Hsum.
  { unfold m. rewrite <- Hlen, insertChecksumAt_split.
    rewrite !(wordSum_app_even k) by assumption.
    unfold wordSum. cbn [beWords fold_right].
    rewrite beWord_PutUint16 by lia.
    change (u8 x00) with 0. lia. }
  rewrite Checksum_closed, Hsum.
  rewrite <- Z.add_mod_idemp_l by lia.
  unfold c. rewrite endAroundCarry_verify by lia. reflexivity.
Qed.

Lemma Checksum_insert_verify_witness :
  exists c, Checksum [x08; x00; x00; x00; x12; x34; x00; x01; xab] = Some c /\
            Checksum (insertChecksum [x08; x00; x00; x00; x12; x34; x00; x01; xab] c)
            = Some 0.
Proof.
  apply (Checksum_insert_verify 1 [x08; x00; x00; x00; x12; x34; x00; x01; xab]);
    reflexivity.
Defined.

(** ** 64-bit counters *)

Lemma int64_id (z : Z) : inInt z -> int64 z = z.
Proof.
  unfold inInt, minInt, maxInt, int64. intros Hz.
  rewrite Z.mod_small; lia.
Qed.

Lemma int64_inInt (z : Z) : inInt (int64 z).
Proof.
  unfold inInt, minInt, maxInt, int64.
  pose proof (Z.mod_pos_bound (z + 2 ^ 63) (2 ^ 64)). lia.
Qed.

Lemma int64_add_l (a b : Z) : int64 (int64 a + b) = int64 (a + b).
Proof.
  unfold int64.
  replace ((a + 2 ^ 63) mod 2 ^ 64 - 2 ^ 63 + b + 2 ^ 63)
    with ((a + 2 ^ 63) mod 2 ^ 64 + b) by lia.
  rewrite Z.add_mod_idemp_l by lia.
  do 2 f_equal. lia.
Qed.

Lemma ICMPType_eqb_eq (a b : ICMPType) : ICMPType_eqb a b = true <-> a = b.
Proof.
  destruct a as [x | x], b as [y | y]; cbn; split; intros Heq;
    try discriminate; try (apply Z.eqb_eq in Heq; congruence);
    injection Heq as ->; apply Z.eqb_refl.
Qed.

Section Session.
Context `{C : icmp.Codec}.

(** *** The receive loop *)

Lemma receive_accepts (p : Pinger) (seq : Z) (d : bytes) (t : Z)
    (rest : list ReadEvent) :
  matching p seq d ->
  receive p seq (ReadData d t :: rest)
  = Returns (recordReply p t, replied seq t).
Proof.
  intros (msg & echo & Hparse & Hty & Hbody & Hid & Hseq).
  cbn [receive]. fold (protocol p). fold (echoReplyType p).
  rewrite Hparse, Hty, Hbody, Hid, Hseq.
  assert (ICMPType_eqb (echoReplyType p) (echoReplyType p) = true) as ->
    by (apply ICMPType_eqb_eq; reflexivity).
  rewrite !Z.eqb_refl. reflexivity.
Qed.

Lemma receive_discards (p : Pinger) (seq : Z) (d : bytes) (t : Z)
    (rest : list ReadEvent) :
  ~ matching p seq d ->
  receive p seq (ReadData d t :: rest) = receive p seq rest.
Proof.
  intros Hno. cbn [receive]. fold (protocol p). fold (echoReplyType p).
  destruct (icmp.ParseMessage (protocol p) (firstn bufSize d))
    as [msg | err] eqn:Hparse; [| reflexivity].
  destruct (ICMPType_eqb (icmp.Type_ msg) (echoReplyType p)) eqn:Hty;
    [| reflexivity].
  apply ICMPType_eqb_eq in Hty. cbn [negb].
  destruct (icmp.Body msg) as [[echo | raw] |] eqn:Hbody; try reflexivity.
  destruct (Z.eqb_spec (icmp.ID echo) (id p)) as [Hid | Hid];
    [| reflexivity].
  destruct (Z.eqb_spec (icmp.Seq echo) seq) as [Hseq | Hseq];
    [| reflexivity].
  exfalso. apply Hno. exists msg, echo. auto.
Qed.

(** Whether a datagram is a reply is decided by the tests of the loop. *)
Lemma matching_dec (p : Pinger) (seq : Z) (d : bytes) :
  matching p seq d \/ ~ matching p seq d.
Proof.
  unfold matching.
  destruct (icmp.ParseMessage (protocol p) (firstn bufSize d))
    as [msg | err] eqn:Hparse.
  2: { right. intros (m & e & Hp & _). discriminate. }
  destruct (ICMPType_eqb (icmp.Type_ msg) (echoReplyType p)) eqn:Hty.
  2: { right. intros (m & e & Hp & Ht & _). injection Hp as <-.
       apply ICMPType_eqb_eq in Ht. congruence. }
  apply ICMPType_eqb_eq in Hty.
  destruct (icmp.Body msg) as [[echo | raw] |] eqn:Hbody.
  2, 3: right; intros (m & e & Hp & _ & Hb & _); injection Hp as <-;
        congruence.
  destruct (Z.eq_dec (icmp.ID echo) (id p)) as [Hid | Hid].
  2: { right. intros (m & e & Hp & _ & Hb & Hi & _). injection Hp as <-.
       rewrite Hbody in Hb. injection Hb as <-. contradiction. }
  destruct (Z.eq_dec (icmp.Seq echo) seq) as [Hseq | Hseq].
  2: { right. intros (m & e & Hp & _ & Hb & _ & Hs). injection Hp as <-.
       rewrite Hbody in Hb. injection Hb as <-. contradiction. }
  left. exists msg, echo. auto.
Qed.

Lemma receive_skips_noise (p : Pinger) (seq : Z) (pre rest : list ReadEvent) :
  Forall (noise p seq) pre ->
  receive p seq (pre ++ rest) = receive p seq rest.
Proof.
  induction 1 as [| e pre (d & t & -> & Hno) _ IH]; [reflexivity |].
  cbn [app]. rewrite receive_discards by assumption. exact IH.
Qed.

(** Every way in which the loop returns. *)
Lemma receive_returns (p p' : Pinger) (seq : Z) (rs : list ReadEvent)
    (r : Result) :
  receive p seq rs = Returns (p', r) ->
  exists pre post, Forall (noise p seq) pre /\
    ((exists err, rs = pre ++ ReadError err :: post /\
                  p' = p /\ r = timedOut seq) \/
     (exists d t, rs = pre ++ ReadData d t :: post /\ matching p seq d /\
                  p' = recordReply p t /\ r = replied seq t)).
Proof.
  induction rs as [| e rs IH]; intros Hret; [discriminate |].
  destruct e as [err | d t].
  - cbn [receive] in Hret. injection Hret as <- <-.
    exists [], rs. split; [constructor |]. left. exists err. auto.
  - destruct (matching_dec p seq d) as [Hm | Hno].
    + rewrite receive_accepts in Hret by assumption.
      injection Hret as <- <-.
      exists [], rs. split; [constructor |]. right. exists d, t. auto.
    + rewrite receive_discards in Hret by assumption.
      destruct (IH Hret) as (pre & post & Hpre & Hcases).
      exists (ReadData d t :: pre), post.
      split; [constructor; [exists d, t; auto | assumption] |].
      destruct Hcases as [(err & -> & ? & ?) | (d' & t' & -> & ? & ? & ?)];
        [left; exists err | right; exists d', t']; auto.
Qed.

(** *** SendPing *)

(** Every way in which [SendPing] returns. *)
Lemma SendPing_returns (w : World) (p p' : Pinger) (seq : Z) (r : Result) :
  SendPing w p seq = Returns (p', r) ->
  (exists err, listen w = Some err /\ p' = p /\ r = failed seq (ErrListen err)) \/
  (listen w = None /\
   ((exists err, buildRequest (now w) p seq = Returns (inr err) /\
                 p' = p /\ r = failed seq (ErrBuild err)) \/
    (exists data, buildRequest (now w) p seq = Returns (inl data) /\
       ((exists err, write w = Some err /\
                     p' = p /\ r = failed seq (ErrWrite err)) \/
        (write w = None /\
         receive (incSent p) seq (reads w) = Returns (p', r)))))).
Proof.
  unfold SendPing. intros Hret.
  destruct (listen w) as [err |].
  { injection Hret as <- <-. left. exists err. auto. }
  right. split; [reflexivity |].
  destruct (buildRequest (now w) p seq) as [[data | err] | msg |];
    cbn [bind] in Hret; try discriminate.
  - right. exists data. split; [reflexivity |].
    destruct (write w) as [err |].
    + injection Hret as <- <-. left. exists err. auto.
    + right. auto.
  - injection Hret as <- <-. left. exists err. auto.
Qed.

(** The effect of a returning call on the counters, read off its result. *)
Lemma SendPing_effect (w : World) (p p' : Pinger) (seq : Z) (r : Result) :
  SendPing w p seq = Returns (p', r) ->
  (Received r = true -> transmitted r = true) /\
  sent p' = (if transmitted r then int64 (sent p + 1) else sent p) /\
  received p' = (if Received r then int64 (received p + 1) else received p) /\
  rtts p' = rtts p ++ (if Received r then [RTT r] else []).
Proof.
  intros Hret. apply SendPing_returns in Hret.
  destruct Hret as [(err & _ & -> & ->)
    | (_ & [(err & _ & -> & ->)
           | (data & _ & [(err & _ & -> & ->) | (_ & Hrecv)])])];
    try (cbn; rewrite app_nil_r; repeat split; auto; discriminate).
  apply receive_returns in Hrecv.
  destruct Hrecv as (pre & post & _ &
    [(err & _ & -> & ->) | (d & t & _ & _ & -> & ->)]);
    cbn; rewrite ?app_nil_r; auto.
Qed.

(** *** Sessions *)

Lemma resolveIPv4_counters (p q : Pinger) (ips : list IP) :
  resolveIPv4 p ips = Some q ->
  sent q = sent p /\ received q = received p /\ rtts q = rtts p.
Proof.
  induction ips as [| ip ips IH]; cbn [resolveIPv4]; intros Hq;
    [discriminate |].
  destruct (To4 ip) as [ip4 |];
    [injection Hq as <-; cbn; auto | apply IH; exact Hq].
Qed.

Lemma resolveIPv6_counters (p q : Pinger) (ips : list IP) :
  resolveIPv6 p ips = Some q ->
  sent q = sent p /\ received q = received p /\ rtts q = rtts p.
Proof.
  induction ips as [| ip ips IH]; cbn [resolveIPv6]; intros Hq;
    [discriminate |].
  destruct (To16 ip) as [ip16 |];
    [injection Hq as <-; cbn; auto | apply IH; exact Hq].
Qed.

Lemma Resolve_counters (L : string -> list IP + error) (p : Pinger) :
  sent (fst (Resolve L p)) = sent p /\
  received (fst (Resolve L p)) = received p /\
  rtts (fst (Resolve L p)) = rtts p.
Proof.
  unfold Resolve. destruct (L (Host p)) as [ips | err]; [| cbn; auto].
  destruct (resolveIPv4 p ips) as [q |] eqn:H4;
    [apply (resolveIPv4_counters _ _ _ H4) |].
  destruct (resolveIPv6 p ips) as [q |] eqn:H6;
    [apply (resolveIPv6_counters _ _ _ H6) |].
  cbn. auto.
Qed.

Lemma count_cons (f : Result -> bool) (r : Result) (rs : list Result) :
  count f (r :: rs) = (if f r then 1 else 0) + count f rs.
Proof.
  unfold count, len. cbn [filter].
  destruct (f r); cbn [List.length]; lia.
Qed.

Lemma count_nonneg (f : Result -> bool) (rs : list Result) : 0 <= count f rs.
Proof. unfold count, len. lia. Qed.

(** The counters after a session, from the results of its probes. *)
Lemma run_effect (cs : list Call) :
  forall (p p' : Pinger) (rs : list Result),
    inInt (sent p) -> inInt (received p) ->
    run p cs = Returns (p', rs) ->
    sent p' = int64 (sent p + count transmitted rs) /\
    received p' = int64 (received p + count Received rs) /\
    rtts p' = rtts p ++ map RTT (filter Received rs) /\
    len rs <= len cs /\
    count Received rs <= count transmitted rs.
Proof.
  induction cs as [| c cs IH]; intros p p' rs Hs Hr Hrun.
  - cbn in Hrun. injection Hrun as <- <-. cbn.
    rewrite !Z.add_0_r, !int64_id, app_nil_r by assumption.
    unfold count, len. cbn. repeat split; lia.
  - assert (len rs <= len cs -> len rs <= len (c :: cs)) as Hlen
      by (unfold len; cbn [List.length]; lia).
    destruct c as [cnt itv tmo size vb | L | w seq |]; cbn [run] in Hrun.
    + apply IH in Hrun; [| assumption ..].
      destruct Hrun as (? & ? & ? & ? & ?). auto 6.
    + pose proof (Resolve_counters L p) as (Es & Er & Et).
      apply IH in Hrun; [| rewrite ?Es, ?Er; assumption ..].
      rewrite Es, Er, Et in Hrun.
      destruct Hrun as (? & ? & ? & ? & ?). auto 6.
    + destruct (SendPing w p seq) as [[p1 r] | |] eqn:Hping;
        cbn [bind fst snd] in Hrun; try discriminate.
      destruct (run p1 cs) as [[p2 rs2] | |] eqn:Hrest;
        cbn [bind fst snd] in Hrun; try discriminate.
      injection Hrun as <- <-.
      apply SendPing_effect in Hping.
      destruct Hping as (Himp & Es & Er & Et).
      apply IH in Hrest.
      2: { rewrite Es. destruct (transmitted r);
             [apply int64_inInt | assumption]. }
      2: { rewrite Er. destruct (Received r);
             [apply int64_inInt | assumption]. }
      destruct Hrest as (Es2 & Er2 & Et2 & Hl2 & Hc2).
      rewrite !count_cons. cbn [filter].
      rewrite Es2, Er2, Et2, Es, Er, Et.
      assert (len (r :: rs2) <= len (CallSendPing w seq :: cs))
        by (unfold len in *; cbn [List.length]; lia).
      destruct (Received r) eqn:Hrecv.
      * rewrite (Himp eq_refl). cbn [map].
        rewrite !int64_add_l, <- app_assoc, !Z.add_assoc.
        repeat split; auto; lia.
      * rewrite app_nil_r.
        destruct (transmitted r);
          rewrite ?int64_add_l, ?Z.add_assoc, ?Z.add_0_r;
          repeat split; auto; lia.
    + apply IH in Hrun; [| assumption ..].
      destruct Hrun as (? & ? & ? & ? & ?). auto 6.
Qed.

End Session.

(** ** Properties of SendPing and buildRequest *)

Section SendPingClaims.
Context `{C : icmp.Codec}.

(** C1 (amended): a call of [SendPing] whose write fails returns a result
    that carries the error and leaves the session as it was, the sent and
    received counters included; a call that returns an error of any kind
    leaves the session unchanged, and a call that returns without an error
    has incremented the sent counter by exactly one. *)
Theorem SendPing_counts_written_probes (w : World) (p : Pinger) (seq : Z) :
  (forall data err,
      listen w = None ->
      buildRequest (now w) p seq = Returns (inl data) ->
      write w = Some err ->
      SendPing w p seq = Returns (p, failed seq (ErrWrite err))) /\
  (forall p' r,
      SendPing w p seq = Returns (p', r) ->
      match Error r with
      | Some _ => p' = p
      | None => sent p' = int64 (sent p + 1) /\
                (minInt <= sent p < maxInt -> sent p' = sent p + 1)
      end).
Proof.
  split.
  - intros data err Hl Hb Hw. unfold SendPing.
    rewrite Hl, Hb. cbn [bind]. rewrite Hw. reflexivity.
  - intros p' r Hret.
    pose proof (SendPing_effect w p p' seq r Hret) as (_ & Hs & _).
    apply SendPing_returns in Hret.
    destruct Hret as [(err & _ & -> & ->)
      | (_ & [(err & _ & -> & ->)
             | (data & _ & [(err & _ & -> & ->) | (_ & Hrecv)])])];
      try reflexivity.
    apply receive_returns in Hrecv.
    destruct Hrecv as (pre & post & _ &
      [(err & _ & -> & ->) | (d & t & _ & _ & -> & ->)]);
      cbn [Error timedOut replied transmitted] in *;
      (split; [exact Hs |]);
      intros Hrange; rewrite Hs; apply int64_id;
      unfold inInt, minInt, maxInt in *; lia.
Qed.

(** C4: [SendPing] returns [Received = true] only when some read delivered
    a datagram that parses, has the Echo Reply type of the family, the
    identifier of the session and the sequence number of the probe, every
    earlier read having delivered a datagram that fails one of these
    checks; the loop passes over every such datagram and leaves the session
    as it was, in particular over an Echo message whose identifier or whose
    sequence number differs; a probe for which no datagram passes the
    checks is never reported as received. *)
Theorem SendPing_matches_only_replies (w : World) (p : Pinger) (seq : Z) :
  (forall p' r,
      SendPing w p seq = Returns (p', r) -> Received r = true ->
      exists pre d t post,
        reads w = pre ++ ReadData d t :: post /\
        Forall (noise p seq) pre /\ matching p seq d /\
        r = replied seq t /\ p' = recordReply (incSent p) t) /\
  (forall q d t rest,
      ~ matching q seq d ->
      receive q seq (ReadData d t :: rest) = receive q seq rest) /\
  (forall q d t rest msg echo,
      icmp.ParseMessage (protocol q) (firstn bufSize d) = inl msg ->
      icmp.Body msg = Some (icmp.EchoBody echo) ->
      icmp.ID echo <> id q \/ icmp.Seq echo <> seq ->
      receive q seq (ReadData d t :: rest) = receive q seq rest) /\
  ((forall d t, In (ReadData d t) (reads w) -> ~ matching p seq d) ->
   forall p' r, SendPing w p seq = Returns (p', r) -> Received r = false).
Proof.
  assert (forall p' r,
      SendPing w p seq = Returns (p', r) -> Received r = true ->
      exists pre d t post,
        reads w = pre ++ ReadData d t :: post /\
        Forall (noise p seq) pre /\ matching p seq d /\
        r = replied seq t /\ p' = recordReply (incSent p) t) as Honly.
  { intros p' r Hret Hrecv. apply SendPing_returns in Hret.
    destruct Hret as [(err & _ & -> & ->)
      | (_ & [(err & _ & -> & ->)
             | (data & _ & [(err & _ & -> & ->) | (_ & Hloop)])])];
      try discriminate.
    apply receive_returns in Hloop.
    destruct Hloop as (pre & post & Hpre &
      [(err & _ & -> & ->) | (d & t & Hreads & Hm & -> & ->)]);
      [discriminate |].
    exists pre, d, t, post. auto. }
  split; [exact Honly |].
  split; [intros q d t rest; apply receive_discards |].
  split.
  - intros q d t rest msg echo Hparse Hbody Hdiff.
    apply receive_discards.
    intros (m & e & Hp & _ & Hb & Hi & Hs).
    rewrite Hparse in Hp. injection Hp as <-.
    rewrite Hbody in Hb. injection Hb as <-.
    destruct Hdiff; contradiction.
  - intros Hnone p' r Hret.
    destruct (Received r) eqn:Hrecv; [| reflexivity].
    destruct (Honly p' r Hret Hrecv) as (pre & d & t & post & Hreads & _ & Hm & _).
    exfalso. apply (Hnone d t); [| exact Hm].
    rewrite Hreads. apply in_elt.
Qed.

(** C5 (amended): when the packet was written and a read fails, because
    the deadline has elapsed or for any other reason, after reads that
    delivered no reply to the probe, [SendPing] returns [Received = false]
    with no error; a result without error and without reply arises in no
    other way, and a call whose socket could not be opened or written to
    returns an error, so that the timeout is distinct from these two
    failures, though not from a failure of the read. *)
Theorem SendPing_timeout_is_not_an_error (w : World) (p : Pinger) (seq : Z) :
  (forall data pre err post,
      listen w = None ->
      buildRequest (now w) p seq = Returns (inl data) ->
      write w = None ->
      reads w = pre ++ ReadError err :: post ->
      Forall (noise p seq) pre ->
      SendPing w p seq = Returns (incSent p, timedOut seq)) /\
  (forall p' r,
      SendPing w p seq = Returns (p', r) ->
      Received r = false -> Error r = None ->
      listen w = None /\ write w = None /\
      exists pre err post,
        reads w = pre ++ ReadError err :: post /\ Forall (noise p seq) pre) /\
  (forall p' r,
      SendPing w p seq = Returns (p', r) ->
      listen w <> None \/ write w <> None ->
      Error r <> None).
Proof.
  split; [| split].
  - intros data pre err post Hl Hb Hw Hreads Hpre. unfold SendPing.
    rewrite Hl, Hb. cbn [bind]. rewrite Hw, Hreads.
    rewrite (receive_skips_noise (incSent p) seq pre) by exact Hpre.
    reflexivity.
  - intros p' r Hret Hrecv Herr. apply SendPing_returns in Hret.
    destruct Hret as [(err & _ & -> & ->)
      | (Hl & [(err & _ & -> & ->)
              | (data & _ & [(err & _ & -> & ->) | (Hw & Hloop)])])];
      try discriminate.
    apply receive_returns in Hloop.
    destruct Hloop as (pre & post & Hpre &
      [(err & Hreads & -> & ->) | (d & t & _ & _ & -> & ->)]);
      [| discriminate].
    repeat split; try assumption. exists pre, err, post. auto.
  - intros p' r Hret Hfail. apply SendPing_returns in Hret.
    destruct Hret as [(err & _ & -> & ->)
      | (Hl & [(err & _ & -> & ->)
              | (data & _ & [(err & _ & -> & ->) | (Hw & Hloop)])])];
      try discriminate.
    destruct Hfail; contradiction.
Qed.

(** What [buildRequest] returns when the payload holds the timestamp and
    fits a datagram. *)
Lemma buildRequest_returns (t : Z) (p : Pinger) (seq : Z) :
  8 <= PayloadSize p <= maxPayload ->
  buildRequest t p seq
  = Returns (icmp.Marshal
      (echoRequest p seq
         (PutUint64 (u64 t) ++ repeat x00 (Z.to_nat (PayloadSize p) - 8)))
      None).
Proof.
  intros Hsize. unfold buildRequest, make, sliceTo.
  destruct (Z.ltb_spec (PayloadSize p) 0); [lia |].
  destruct (Z.ltb_spec maxAlloc (PayloadSize p));
    [unfold maxAlloc, maxPayload in *; lia |].
  cbn [bind]. unfold len. rewrite repeat_length.
  destruct (Z.leb_spec 8 (Z.of_nat (Z.to_nat (PayloadSize p)))); [| lia].
  cbn [andb Z.leb Z.compare bind].
  change 8%nat with (0 + 8)%nat.
  replace (Z.to_nat (PayloadSize p))
    with (8 + (Z.to_nat (PayloadSize p) - 8))%nat at 1 by lia.
  rewrite repeat_app, skipn_app, repeat_length.
  cbn [Nat.add Nat.sub skipn repeat app]. reflexivity.
Qed.

(** C10 (amended): for every payload size below 8, [buildRequest] returns
    neither a packet nor an error: it panics in [make] when the size is
    negative and in [payload[:8]] when it is 0 to 7, so that it returns
    only if the size is at least 8; [SendPing] panics likewise whenever
    the socket was opened, and returns the error of [ListenPacket] when it
    was not. *)
Theorem buildRequest_short_payload_panics (w : World) (p : Pinger) (seq : Z)
    (Hsize : PayloadSize p < 8) :
  buildRequest (now w) p seq
  = Panics (if PayloadSize p <? 0 then "makeslice: len out of range"
            else "slice bounds out of range") /\
  (listen w = None ->
   SendPing w p seq
   = Panics (if PayloadSize p <? 0 then "makeslice: len out of range"
             else "slice bounds out of range")) /\
  (forall q t s v, buildRequest t q s = Returns v -> 8 <= PayloadSize q) /\
  (forall err, listen w = Some err ->
               SendPing w p seq = Returns (p, failed seq (ErrListen err))).
Proof.
  assert (forall q t s, PayloadSize q < 8 ->
            buildRequest t q s
            = Panics (if PayloadSize q <? 0 then "makeslice: len out of range"
                      else "slice bounds out of range")) as Hpanic.
  { intros q t s Hq. unfold buildRequest, make, sliceTo.
    destruct (Z.ltb_spec (PayloadSize q) 0); [reflexivity |].
    destruct (Z.ltb_spec maxAlloc (PayloadSize q));
      [unfold maxAlloc in *; lia |].
    cbn [bind]. unfold len. rewrite repeat_length.
    destruct (Z.leb_spec 8 (Z.of_nat (Z.to_nat (PayloadSize q)))); [lia |].
    reflexivity. }
  split; [apply Hpanic; exact Hsize |].
  split; [| split].
  - intros Hl. unfold SendPing. rewrite Hl, Hpanic by exact Hsize.
    reflexivity.
  - intros q t s v Hret.
    destruct (Z.le_gt_cases 8 (PayloadSize q)) as [| Hlt]; [assumption |].
    rewrite Hpanic in Hret by lia. discriminate.
  - intros err Hl. unfold SendPing. rewrite Hl. reflexivity.
Qed.

End SendPingClaims.

(** C1, as stated, fails when the write fails: the call returns the error
    and the sent counter of the session is still 0. *)
Lemma SendPing_write_failure_not_counted :
  SendPing (C := exampleCodec) exWorldWriteFails exPinger 1
  = Returns (exPinger,
             failed 1 (ErrWrite (SysError "sendto: network is unreachable"))) /\
  sent exPinger = 0 /\ sent exPinger <> sent exPinger + 1.
Proof. vm_compute. repeat split; discriminate. Qed.

Lemma SendPing_counts_written_probes_witness :
  sent (incSent exPinger) = sent exPinger + 1.
Proof.
  pose proof (proj2 (SendPing_counts_written_probes (C := exampleCodec)
                       exWorldTimeout exPinger 2)
                (incSent exPinger) (timedOut 2)) as H.
  cbn [Error timedOut] in H.
  apply H; [vm_compute; reflexivity |].
  vm_compute. split; [discriminate | reflexivity].
Defined.

(** C3 fails for the payload sizes 0 to 7: with the size 4, an identifier
    and a sequence number of 16 bits, [buildRequest] panics on [payload[:8]]
    and returns neither a packet nor an error. *)
Theorem buildRequest_payload_4_panics (C : icmp.Codec) (t : Z) :
  PayloadSize exShortPinger = 4 /\ id exShortPinger = 4660 /\
  buildRequest t exShortPinger 1 = Panics "slice bounds out of range".
Proof. repeat split. Qed.

Lemma SendPing_matches_only_replies_witness :
  exists pre d t post,
    reads exWorldReply = pre ++ ReadData d t :: post /\
    Forall (noise (C := exampleCodec) exPinger 2) pre /\
    matching (C := exampleCodec) exPinger 2 d /\
    replied 2 1200 = replied 2 t /\
    recordReply (incSent exPinger) 1200 = recordReply (incSent exPinger) t.
Proof.
  apply (proj1 (SendPing_matches_only_replies (C := exampleCodec)
                  exWorldReply exPinger 2));
    vm_compute; reflexivity.
Defined.

Lemma SendPing_timeout_is_not_an_error_witness :
  SendPing (C := exampleCodec) exWorldTimeout exPinger 2
  = Returns (incSent exPinger, timedOut 2).
Proof.
  apply (proj1 (SendPing_timeout_is_not_an_error (C := exampleCodec)
                  exWorldTimeout exPinger 2)
           (exRequest 2) [ReadData exStale 500] exDeadline []);
    try (vm_compute; reflexivity).
  constructor; [| constructor].
  exists exStale, 500. split; [reflexivity |].
  intros (msg & echo & Hparse & _ & Hbody & _ & Hseq).
  vm_compute in Hparse. injection Hparse as <-.
  vm_compute in Hbody. injection Hbody as <-.
  vm_compute in Hseq. discriminate.
Defined.

(** C5, as stated, fails for a failure of the socket on the read side: a
    read that fails with "connection refused" gives the very result of a
    read on which the deadline has elapsed, [Received = false] with no
    error, so that the timeout is not distinct from this socket failure. *)
Lemma SendPing_read_failure_looks_like_timeout :
  SendPing (C := exampleCodec) exWorldReadFails exPinger 2
  = Returns (incSent exPinger, timedOut 2) /\
  SendPing (C := exampleCodec) exWorldSilent exPinger 2
  = Returns (incSent exPinger, timedOut 2) /\
  Error (timedOut 2) = None.
Proof. vm_compute. repeat split. Qed.

(** C10, as stated, fails for [SendPing] when the socket cannot be opened:
    with the payload size 4 the call returns the error of [ListenPacket],
    before the packet is built. *)
Lemma SendPing_short_payload_listen_error :
  PayloadSize exShortPinger = 4 /\
  SendPing (C := exampleCodec) exWorldListenFails exShortPinger 1
  = Returns (exShortPinger,
             failed 1 (ErrListen (SysError "socket: operation not permitted"))).
Proof. split; reflexivity. Qed.

Lemma buildRequest_short_payload_panics_witness :
  buildRequest (C := exampleCodec) 1000 exShortPinger 1
  = Panics "slice bounds out of range".
Proof.
  apply (buildRequest_short_payload_panics (C := exampleCodec)
           exWorldTimeout exShortPinger 1).
  vm_compute. reflexivity.
Defined.

(** ** Properties of Resolve *)

(** The first loop returns at the first address that [To4] accepts. *)
Lemma resolveIPv4_Some (p q : Pinger) (ips : list IP) :
  resolveIPv4 p ips = Some q ->
  exists pre ip post ip4,
    ips = pre ++ ip :: post /\ Forall (fun i => To4 i = None) pre /\
    To4 ip = Some ip4 /\ q = setTarget p ip4 "ip4:icmp" false.
Proof.
  induction ips as [| ip ips IH]; cbn [resolveIPv4]; intros Hq;
    [discriminate |].
  destruct (To4 ip) as [ip4 |] eqn:H4.
  - injection Hq as <-. exists [], ip, ips, ip4. auto.
  - destruct (IH Hq) as (pre & ip' & post & ip4 & -> & Hpre & Hip & ->).
    exists (ip :: pre), ip', post, ip4. auto.
Qed.

Lemma resolveIPv4_None (p : Pinger) (ips : list IP) :
  resolveIPv4 p ips = None <-> Forall (fun i => ~ isIPv4Addr i) ips.
Proof.
  unfold isIPv4Addr.
  induction ips as [| ip ips IH]; cbn [resolveIPv4]; [split; auto |].
  destruct (To4 ip) as [ip4 |] eqn:H4; split; intros H.
  - discriminate.
  - inversion H as [| ? ? Hip _]. exfalso. apply Hip. rewrite H4. discriminate.
  - constructor; [intros Hne; apply Hne; exact H4 | apply IH; exact H].
  - apply IH. inversion H; assumption.
Qed.

Lemma resolveIPv6_Some (p q : Pinger) (ips : list IP) :
  resolveIPv6 p ips = Some q ->
  exists pre ip post,
    ips = pre ++ ip :: post /\ Forall (fun i => To16 i = None) pre /\
    To16 ip <> None /\ q = setTarget p ip "ip6:ipv6-icmp" true.
Proof.
  induction ips as [| ip ips IH]; cbn [resolveIPv6]; intros Hq;
    [discriminate |].
  destruct (To16 ip) as [ip16 |] eqn:H16.
  - injection Hq as <-. exists [], ip, ips.
    repeat split; auto. rewrite H16. discriminate.
  - destruct (IH Hq) as (pre & ip' & post & -> & Hpre & Hip & ->).
    exists (ip :: pre), ip', post. auto.
Qed.

Lemma resolveIPv6_None (p : Pinger) (ips : list IP) :
  resolveIPv6 p ips = None <-> Forall (fun i => To16 i = None) ips.
Proof.
  induction ips as [| ip ips IH]; cbn [resolveIPv6]; [split; auto |].
  destruct (To16 ip) as [ip16 |] eqn:H16; split; intros H.
  - discriminate.
  - inversion H; congruence.
  - constructor; [exact H16 | apply IH; exact H].
  - apply IH. inversion H; assumption.
Qed.

(** C7: when the lookup returns addresses of which one is an IPv4 address,
    [Resolve] selects the first IPv4 address and sets the family to IPv4; it
    selects an IPv6 address only when no address is an IPv4 address, and then
    the first usable one; and it fails exactly when no address of the result
    is usable.  A lookup that fails makes [Resolve] fail as well. *)
Theorem Resolve_prefers_IPv4 (LookupIP : string -> list IP + error) (p : Pinger) :
  (forall ips,
      LookupIP (Host p) = inl ips ->
      (Exists isIPv4Addr ips ->
       exists pre ip post ip4,
         ips = pre ++ ip :: post /\ Forall (fun i => ~ isIPv4Addr i) pre /\
         To4 ip = Some ip4 /\
         Resolve LookupIP p = (setTarget p ip4 "ip4:icmp" false, None)) /\
      (forall p', Resolve LookupIP p = (p', None) -> isIPv6 p' = true ->
         Forall (fun i => ~ isIPv4Addr i) ips /\
         exists pre ip post,
           ips = pre ++ ip :: post /\ Forall (fun i => ~ usableAddr i) pre /\
           usableAddr ip /\ p' = setTarget p ip "ip6:ipv6-icmp" true) /\
      (Forall (fun i => ~ usableAddr i) ips <->
       Resolve LookupIP p = (p, Some (ErrNoUsableIP (Host p)))) /\
      (Forall (fun i => ~ usableAddr i) ips <->
       snd (Resolve LookupIP p) <> None)) /\
  (forall err,
      LookupIP (Host p) = inr err ->
      Resolve LookupIP p = (p, Some (ErrLookup (Host p) err))).
Proof.
  split; [| intros err Hl; unfold Resolve; rewrite Hl; reflexivity].
  intros ips Hl. unfold Resolve. rewrite Hl.
  assert (Forall (fun i => ~ usableAddr i) ips <->
          resolveIPv4 p ips = None /\ resolveIPv6 p ips = None) as Hnone.
  { rewrite resolveIPv4_None, resolveIPv6_None, !Forall_forall.
    unfold usableAddr, isIPv4Addr. split.
    - intros H. split; intros i Hi; specialize (H i Hi).
      + tauto.
      + destruct (To16 i); [exfalso; apply H; right; discriminate | reflexivity].
    - intros [H4 H6] i Hi [H | H]; [exact (H4 i Hi H) |].
      apply H. apply H6. exact Hi. }
  destruct (resolveIPv4 p ips) as [q4 |] eqn:E4.
  - apply resolveIPv4_Some in E4 as Hsel.
    destruct Hsel as (pre & ip & post & ip4 & Hips & Hpre & Hip & ->).
    split; [| split; [| split]].
    + intros _. exists pre, ip, post, ip4. repeat split; auto.
      eapply Forall_impl; [| exact Hpre].
      unfold isIPv4Addr. intros i Hi Hne. contradiction.
    + intros p' Hret Hv6. injection Hret as <-. discriminate.
    + rewrite Hnone. split; [intros [? _]; discriminate |].
      intros Heq. discriminate.
    + rewrite Hnone. cbn [snd]. split; [intros [? _]; discriminate |].
      intros Hne. exfalso. apply Hne. reflexivity.
  - pose proof (proj1 (resolveIPv4_None p ips) E4) as Hno4.
    split; [| split; [| split]].
    + intros Hex. exfalso. apply Exists_exists in Hex.
      destruct Hex as (i & Hi & H4). rewrite Forall_forall in Hno4.
      exact (Hno4 i Hi H4).
    + destruct (resolveIPv6 p ips) as [q6 |] eqn:E6; [| discriminate].
      intros p' Hret _. injection Hret as <-.
      split; [exact Hno4 |].
      apply resolveIPv6_Some in E6.
      destruct E6 as (pre & ip & post & Hips & Hpre & Hip & ->).
      exists pre, ip, post. repeat split; auto.
      * subst ips. apply Forall_app in Hno4 as [Hno4 _].
        rewrite Forall_forall in *. intros i Hi [H | H].
        -- exact (Hno4 i Hi H).
        -- apply H. apply Hpre. exact Hi.
      * right. exact Hip.
    + rewrite Hnone.
      destruct (resolveIPv6 p ips) as [q6 |] eqn:E6; split.
      * intros [_ ?]; discriminate.
      * intros Heq. discriminate.
      * reflexivity.
      * auto.
    + rewrite Hnone.
      destruct (resolveIPv6 p ips) as [q6 |] eqn:E6; cbn [snd]; split.
      * intros [_ ?]; discriminate.
      * intros Hne. exfalso. apply Hne. reflexivity.
      * discriminate.
      * auto.
Qed.

Lemma Resolve_prefers_IPv4_witness :
  exists pre ip post ip4,
    [[x20; x01; x0d; xb8; x00; x00; x00; x00; x00; x00; x00; x00; x00; x00; x00; x01];
     [xc0; x00; x02; x07]] = pre ++ ip :: post /\
    Forall (fun i => ~ isIPv4Addr i) pre /\
    To4 ip = Some ip4 /\
    Resolve exLookup exPinger = (setTarget exPinger ip4 "ip4:icmp" false, None).
Proof.
  apply (proj1 (Resolve_prefers_IPv4 exLookup exPinger)).
  - reflexivity.
  - apply Exists_cons_tl. apply Exists_cons_hd.
    unfold isIPv4Addr. vm_compute. discriminate.
Defined.

(** ** Properties of Statistics and of sessions *)

Lemma minimum_min (a b : Z) (l : list Z) :
  minimum (Z.min a b) l = Z.min b (minimum a l).
Proof.
  unfold minimum. induction l as [| x l IH]; cbn [fold_right]; [lia |].
  rewrite IH. lia.
Qed.

Lemma maximum_max (a b : Z) (l : list Z) :
  maximum (Z.max a b) l = Z.max b (maximum a l).
Proof.
  unfold maximum. induction l as [| x l IH]; cbn [fold_right]; [lia |].
  rewrite IH. lia.
Qed.

Lemma minimum_le (a : Z) (l : list Z) : minimum a l <= a.
Proof.
  unfold minimum. induction l as [| x l IH]; cbn [fold_right]; lia.
Qed.

Lemma maximum_ge (a : Z) (l : list Z) : a <= maximum a l.
Proof.
  unfold maximum. induction l as [| x l IH]; cbn [fold_right]; lia.
Qed.

(** The loop of [Statistics]: the wrapped sum, the least and the greatest. *)
Lemma statsLoop_closed (rs : list Z) :
  forall total mn mx, inInt total ->
    statsLoop rs total mn mx
    = (int64 (total + sumZ rs), minimum mn rs, maximum mx rs).
Proof.
  induction rs as [| r rs IH]; intros total mn mx Htotal; cbn [statsLoop].
  - cbn. rewrite Z.add_0_r, int64_id by assumption. reflexivity.
  - rewrite IH by apply int64_inInt.
    rewrite int64_add_l.
    assert ((if r <? mn then r else mn) = Z.min mn r) as ->
      by (destruct (Z.ltb_spec r mn); lia).
    assert ((if r >? mx then r else mx) = Z.max mx r) as ->
      by (rewrite Z.gtb_ltb; destruct (Z.ltb_spec mx r); lia).
    rewrite minimum_min, maximum_max.
    unfold sumZ, minimum, maximum. cbn [fold_right].
    do 2 f_equal. f_equal. lia.
Qed.

(** What [Statistics] returns, field by field. *)
Lemma Statistics_fields (p : Pinger) :
  let s := Statistics p in
  Stats.Sent s = sent p /\ Stats.Received s = received p /\
  Stats.Lost s = int64 (sent p - received p) /\
  Stats.Loss s =
    (if sent p >? 0
     then f64mul (f64div (float64_of_int (int64 (sent p - received p)))
                         (float64_of_int (sent p)))
                 (float64_of_int 100)
     else f64zero) /\
  match rtts p with
  | [] => Stats.Min s = 0 /\ Stats.Max s = 0 /\ Stats.Avg s = 0
  | t :: ts =>
      Stats.Min s = minimum t ts /\ Stats.Max s = maximum t ts /\
      Stats.Avg s = Z.quot (int64 (sumZ (rtts p))) (len (rtts p))
  end.
Proof.
  unfold Statistics.
  destruct (rtts p) as [| t ts] eqn:Hrtts; [cbn; auto 8 |].
  rewrite statsLoop_closed by (unfold inInt, minInt, maxInt; lia).
  cbn [Stats.Sent Stats.Received Stats.Lost Stats.Loss Stats.Min Stats.Max
       Stats.Avg].
  repeat split.
  - unfold minimum. cbn [fold_right]. pose proof (minimum_le t ts).
    unfold minimum in *. lia.
  - unfold maximum. cbn [fold_right]. pose proof (maximum_ge t ts).
    unfold maximum in *. lia.
Qed.

Section SessionClaims.
Context `{C : icmp.Codec}.

(** The counters of a fresh session after its calls. *)
Lemma session_counters (pid : Z) (host : string) (cs : list Call)
    (p : Pinger) (rs : list Result) :
  len cs <= maxInt ->
  run (NewPinger pid host) cs = Returns (p, rs) ->
  sent p = count transmitted rs /\
  received p = count Received rs /\
  rtts p = map RTT (filter Received rs) /\
  0 <= count Received rs <= count transmitted rs /\
  count transmitted rs <= len rs <= len cs.
Proof.
  intros Hlen Hrun.
  apply run_effect in Hrun; [| cbn; unfold inInt, minInt, maxInt; lia ..].
  destruct Hrun as (Hs & Hr & Ht & Hl & Hc).
  cbn [NewPinger sent received rtts app] in Hs, Hr, Ht.
  rewrite Z.add_0_l in Hs, Hr.
  pose proof (count_nonneg Received rs).
  assert (count transmitted rs <= len rs).
  { unfold count, len. pose proof (filter_length_le transmitted rs). lia. }
  rewrite int64_id in Hs, Hr by (unfold inInt, minInt, maxInt in *; lia).
  auto 8.
Qed.

(** C6 (amended): after a session in which [n] probes were written to the
    socket (their call returned without error) and [k] of them were
    answered, [Statistics] returns sent [n], received [k], lost [n - k],
    as loss the binary64 value of [(n - k) / n * 100], zero when [n] is 0,
    and the least, the greatest and the mean of the round-trip times of the
    answered probes, all three zero when there is none. *)
Theorem Statistics_of_session (pid : Z) (host : string) (cs : list Call)
    (p : Pinger) (rs : list Result)
    (Hlen : len cs <= maxInt)
    (Hrun : run (NewPinger pid host) cs = Returns (p, rs)) :
  let s := Statistics p in
  let n := count transmitted rs in
  let k := count Received rs in
  let times := map RTT (filter Received rs) in
  0 <= k <= n /\ n <= len rs /\
  Stats.Sent s = n /\ Stats.Received s = k /\ Stats.Lost s = n - k /\
  Stats.Loss s =
    (if n =? 0 then f64zero
     else f64mul (f64div (float64_of_int (n - k)) (float64_of_int n))
                 (float64_of_int 100)) /\
  match times with
  | [] => Stats.Min s = 0 /\ Stats.Max s = 0 /\ Stats.Avg s = 0
  | t :: ts =>
      Stats.Min s = minimum t ts /\ Stats.Max s = maximum t ts /\
      Stats.Avg s = Z.quot (int64 (sumZ times)) k
  end.
Proof.
  destruct (session_counters pid host cs p rs Hlen Hrun)
    as (Hs & Hr & Ht & Hk & Hn).
  pose proof (Statistics_fields p) as Hf. cbv zeta in Hf |- *.
  destruct Hf as (Fs & Fr & Fl & Floss & Ftimes).
  rewrite Hs, Hr in *. rewrite Ht in Ftimes.
  assert (int64 (count transmitted rs - count Received rs)
          = count transmitted rs - count Received rs) as Hlost.
  { apply int64_id. unfold inInt, minInt, maxInt in *. lia. }
  rewrite Hlost in *.
  repeat split; try assumption; try lia.
  - rewrite Floss. rewrite Z.gtb_ltb.
    destruct (Z.ltb_spec 0 (count transmitted rs));
      destruct (Z.eqb_spec (count transmitted rs) 0); try lia; reflexivity.
  - destruct (map RTT (filter Received rs)) as [| t ts] eqn:Htimes;
      [assumption |].
    assert (len (t :: ts) = count Received rs) as Hcount.
    { rewrite <- Htimes. unfold count, len. rewrite length_map. reflexivity. }
    rewrite Hcount in Ftimes. exact Ftimes.
Qed.

(** C9: after every sequence of calls on a session made by [NewPinger]
    (of fewer than [2^63] calls, so that no counter wraps around), the
    number of stored round-trip times is the received counter and the
    received counter does not exceed the sent counter; and each call of
    [SendPing] that returns keeps this so. *)
Theorem counters_invariant (pid : Z) (host : string) (cs : list Call)
    (p : Pinger) (rs : list Result)
    (Hlen : len cs <= maxInt)
    (Hrun : run (NewPinger pid host) cs = Returns (p, rs)) :
  counters_ok p /\
  (forall w seq p' r,
      sent p < maxInt ->
      SendPing w p seq = Returns (p', r) -> counters_ok p').
Proof.
  destruct (session_counters pid host cs p rs Hlen Hrun)
    as (Hs & Hr & Ht & Hk & Hn).
  assert (counters_ok p) as Hok.
  { unfold counters_ok. rewrite Hs, Hr, Ht. unfold count, len.
    rewrite length_map. unfold count, len in Hk. lia. }
  split; [exact Hok |].
  intros w seq p' r Hmax Hping.
  apply SendPing_effect in Hping. destruct Hping as (Himp & Es & Er & Et).
  destruct Hok as [Hl Hle]. unfold counters_ok.
  assert (0 <= received p) by (rewrite <- Hl; unfold len; lia).
  rewrite Es, Er, Et. unfold len in *. rewrite length_app.
  destruct (Received r).
  - rewrite (Himp eq_refl). cbn [List.length].
    rewrite !int64_id by (unfold inInt, minInt, maxInt in *; lia). lia.
  - cbn [List.length].
    destruct (transmitted r);
      rewrite ?int64_id by (unfold inInt, minInt, maxInt in *; lia); lia.
Qed.

End SessionClaims.

(** C6, as stated, fails in two ways.  When a probe cannot be written, one
    probe was issued, its call returned an error, and [Statistics] reports
    sent 0.  And after 100 written probes of which 93 were answered, the loss
    [float64(7) / float64(100) * 100] is the binary64 number next above 7,
    not [100 * (100 - 93) / 100 = 7]. *)
Lemma Statistics_differs_from_claim :
  (exists p r,
      run (C := exampleCodec) exPinger [CallSendPing exWorldWriteFails 1]
      = Returns (p, [r]) /\
      Stats.Sent (Statistics p) = 0 /\ Stats.Sent (Statistics p) <> len [r]) /\
  (exists p rs,
      run (C := exampleCodec) exPinger exLossySession = Returns (p, rs) /\
      len rs = 100 /\ count transmitted rs = 100 /\ count Received rs = 93 /\
      Stats.Sent (Statistics p) = 100 /\ Stats.Received (Statistics p) = 93 /\
      Stats.Loss (Statistics p) = S754_finite false 7881299347898369 (-50) /\
      float64_of_int (100 * (100 - 93) / 100)
      = S754_finite false 7881299347898368 (-50) /\
      Stats.Loss (Statistics p) <> float64_of_int (100 * (100 - 93) / 100)).
Proof.
  split.
  - exists exPinger,
      (failed 1 (ErrWrite (SysError "sendto: network is unreachable"))).
    vm_compute. repeat split; discriminate.
  - destruct (run (C := exampleCodec) exPinger exLossySession)
      as [[p rs] | |] eqn:Hrun; [| vm_compute in Hrun; discriminate ..].
    exists p, rs. split; [reflexivity |].
    vm_compute in Hrun. injection Hrun as <- <-.
    vm_compute. repeat split; discriminate.
Qed.

Lemma Statistics_of_session_witness :
  Stats.Sent (Statistics exSessionEnd) = 2 /\
  Stats.Received (Statistics exSessionEnd) = 1 /\
  Stats.Lost (Statistics exSessionEnd) = 1.
Proof.
  pose proof (Statistics_of_session (C := exampleCodec) 4660 "example.org"
                exSession exSessionEnd
                [replied 2 1200; timedOut 2;
                 failed 3 (ErrWrite (SysError "sendto: network is unreachable"))])
    as H.
  cbv zeta in H.
  destruct H as (_ & _ & Hs & Hr & Hl & _).
  - vm_compute. discriminate.
  - vm_compute. reflexivity.
  - split; [exact Hs | split; [exact Hr | exact Hl]].
Defined.

Lemma counters_invariant_witness : counters_ok exSessionEnd.
Proof.
  apply (counters_invariant (C := exampleCodec) 4660 "example.org"
           exSession exSessionEnd
           [replied 2 1200; timedOut 2;
            failed 3 (ErrWrite (SysError "sendto: network is unreachable"))]).
  - vm_compute. discriminate.
  - vm_compute. reflexivity.
Defined.

(** ** Further properties of Checksum *)

(** X1: [Checksum] returns for every input, whatever its length, a value of
    16 bits, and the bound on the tests of the folding loop plays no part:
    with any larger bound the result is the same. *)
Theorem Checksum_returns_16_bits (b : bytes) :
  exists c, Checksum b = Some c /\ 0 <= c < 2 ^ 16 /\
            forall fuel, (3 <= fuel)%nat -> ChecksumFuel fuel b = Some c.
Proof.
  pose proof (Z.mod_pos_bound (wordSum b) (2 ^ 32) ltac:(lia)) as Hx.
  pose proof (endAroundCarry_range (wordSum b mod 2 ^ 32) ltac:(lia)) as He.
  exists (65535 - endAroundCarry (wordSum b mod 2 ^ 32)).
  split; [apply Checksum_closed |].
  split; [lia |].
  intros fuel Hfuel. apply ChecksumFuel_closed. exact Hfuel.
Qed.

Lemma Checksum_returns_16_bits_witness :
  exists c, Checksum [x01; x02; x03] = Some c /\ 0 <= c < 2 ^ 16 /\
            ChecksumFuel 7 [x01; x02; x03] = Some c.
Proof.
  destruct (Checksum_returns_16_bits [x01; x02; x03]) as (c & Hc & Hr & Hf).
  exists c. split; [exact Hc |]. split; [exact Hr |].
  apply Hf. repeat constructor.
Defined.

Lemma wordSum_app_zero (b : bytes) : wordSum (b ++ [x00]) = wordSum b.
Proof.
  induction b as [| x | x y l IH] using bytes_pair_ind.
  - reflexivity.
  - unfold wordSum. cbn [app beWords fold_right]. change (u8 x00) with 0. lia.
  - unfold wordSum in *. cbn [app beWords fold_right]. rewrite IH. reflexivity.
Qed.

(** X2: a zero byte appended to a message, of even or odd length, does not
    change its checksum: the odd last byte is summed as if it were followed
    by zero. *)
Theorem Checksum_zero_padding (b : bytes) : Checksum (b ++ [x00]) = Checksum b.
Proof. rewrite !Checksum_closed, wordSum_app_zero. reflexivity. Qed.

(** X3: the checksum does not depend on the order of the 16-bit words: two
    parts of even length may be exchanged. *)
Theorem Checksum_parts_commute (j k : nat) (a b : bytes)
    (Ha : List.length a = (2 * j)%nat) (Hb : List.length b = (2 * k)%nat) :
  Checksum (a ++ b) = Checksum (b ++ a).
Proof.
  rewrite !Checksum_closed.
  rewrite (wordSum_app_even j a b Ha), (wordSum_app_even k b a Hb).
  rewrite Z.add_comm. reflexivity.
Qed.

Lemma Checksum_parts_commute_witness :
  Checksum ([x45; x00] ++ [x00; x73; x01; x02])
  = Checksum ([x00; x73; x01; x02] ++ [x45; x00]).
Proof.
  apply (Checksum_parts_commute 1 2); reflexivity.
Defined.

Lemma u8_zero (x : byte) : u8 x = 0 -> x = x00.
Proof.
  unfold u8. intros H.
  assert (Byte.to_N x = 0%N) as Hn by lia.
  pose proof (Byte.of_to_N x) as Hof. rewrite Hn in Hof.
  cbn in Hof. congruence.
Qed.

Lemma wordSum_zero_iff (b : bytes) :
  wordSum b = 0 <-> Forall (fun x => x = x00) b.
Proof.
  induction b as [| x | x y l IH] using bytes_pair_ind.
  - split; [constructor | reflexivity].
  - unfold wordSum. cbn [beWords fold_right]. pose proof (u8_range x) as Hx.
    split.
    + intros Hz. constructor; [apply u8_zero; lia | constructor].
    + intros Hall. inversion Hall; subst. change (u8 x00) with 0. lia.
  - pose proof (wordSum_nonneg l) as Hl.
    unfold wordSum in *. cbn [beWords fold_right].
    pose proof (u8_range x) as Hx. pose proof (u8_range y) as Hy.
    split.
    + intros Hz.
      constructor; [apply u8_zero; lia |].
      constructor; [apply u8_zero; lia |].
      apply IH. lia.
    + intros Hall. inversion Hall as [| ? ? Ex Hall']; subst.
      inversion Hall' as [| ? ? Ey Hall'']; subst.
      apply IH in Hall''. change (u8 x00) with 0. lia.
Qed.

Lemma Some_eq_inv (a b : Z) : Some a = Some b -> a = b.
Proof. congruence. Qed.

(** A message verifies when the sum of its words is a positive multiple of
    [2^16 - 1]. *)
Lemma Checksum_zero_iff (b : bytes) :
  len b <= 131074 ->
  (Checksum b = Some 0 <-> 0 < wordSum b /\ wordSum b mod 65535 = 0).
Proof.
  intros Hlen. pose proof (wordSum_fits b Hlen) as Hfit.
  rewrite Checksum_closed, Z.mod_small by lia.
  unfold endAroundCarry.
  destruct (Z.eqb_spec (wordSum b) 0) as [H0 | H0].
  - split; [discriminate | lia].
  - pose proof (Z.mod_pos_bound (wordSum b - 1) 65535 ltac:(lia)) as Hr.
    pose proof (Z.div_mod (wordSum b - 1) 65535 ltac:(lia)) as Hdm.
    split.
    + intros Heq. apply Some_eq_inv in Heq. split; [lia |].
      replace (wordSum b)
        with (0 + ((wordSum b - 1) / 65535 + 1) * 65535) at 1 by lia.
      rewrite Z.mod_add by lia. reflexivity.
    + intros [Hpos Hmod]. f_equal.
      pose proof (Z.div_mod (wordSum b) 65535 ltac:(lia)) as Hdm'.
      assert (0 < wordSum b / 65535).
      { destruct (Z.le_gt_cases (wordSum b / 65535) 0) as [Hle | ]; [| lia].
        pose proof (Z.div_pos (wordSum b) 65535). lia. }
      replace (wordSum b - 1)
        with (65534 + (wordSum b / 65535 - 1) * 65535) by lia.
      rewrite Z.mod_add by lia. reflexivity.
Qed.

Lemma beWord_range (hi lo : byte) : 0 <= beWord hi lo < 2 ^ 16.
Proof.
  unfold beWord. pose proof (u8_range hi). pose proof (u8_range lo). lia.
Qed.

Lemma wordSum_word_at (k : nat) (pre post : bytes) (hi lo : byte) :
  List.length pre = (2 * k)%nat ->
  wordSum (pre ++ hi :: lo :: post) = wordSum pre + beWord hi lo + wordSum post.
Proof.
  intros Hpre. rewrite (wordSum_app_even k) by assumption.
  unfold wordSum, beWord. cbn [beWords fold_right]. lia.
Qed.

(** X4: error detection.  In a message (of at most 131074 bytes) that
    verifies, that is whose checksum is zero, replacing one 16-bit word by
    another value gives a message that verifies again only when [0x0000]
    becomes [0xffff], or [0xffff] becomes [0x0000] in a message that has
    another non-zero byte: every other change of a single word is detected. *)
Theorem Checksum_detects_word_change (k : nat) (pre post : bytes)
    (a1 a0 b1 b0 : byte)
    (Hpre : List.length pre = (2 * k)%nat)
    (Hlen : len (pre ++ a1 :: a0 :: post) <= 131074)
    (Hok : Checksum (pre ++ a1 :: a0 :: post) = Some 0)
    (Hdiff : beWord a1 a0 <> beWord b1 b0) :
  Checksum (pre ++ b1 :: b0 :: post) = Some 0 <->
  (beWord a1 a0 = 0 /\ beWord b1 b0 = 65535) \/
  (beWord a1 a0 = 65535 /\ beWord b1 b0 = 0 /\
   ~ Forall (fun x => x = x00) (pre ++ post)).
Proof.
  assert (len (pre ++ b1 :: b0 :: post) <= 131074) as Hlen'.
  { unfold len in *. rewrite length_app in *. cbn [List.length] in *. exact Hlen. }
  rewrite Checksum_zero_iff in Hok by assumption.
  rewrite Checksum_zero_iff by assumption.
  rewrite <- wordSum_zero_iff, (wordSum_app_even k pre post) by assumption.
  rewrite (wordSum_word_at k) in * by assumption.
  pose proof (beWord_range a1 a0) as Ha. pose proof (beWord_range b1 b0) as Hb.
  pose proof (wordSum_nonneg pre). pose proof (wordSum_nonneg post).
  destruct Hok as [Hpos Hmod].
  set (wa := beWord a1 a0) in *. set (wb := beWord b1 b0) in *.
  set (s := wordSum pre + wordSum post) in *.
  replace (wordSum pre + wa + wordSum post) with (s + wa) in * by (unfold s; lia).
  replace (wordSum pre + wb + wordSum post) with (s + wb) by (unfold s; lia).
  assert (0 <= s) by (unfold s; lia).
  pose proof (Z.div_mod (s + wa) 65535 ltac:(lia)) as Hda.
  rewrite Hmod in Hda.
  split.
  - intros [Hpos' Hmod'].
    pose proof (Z.div_mod (s + wb) 65535 ltac:(lia)) as Hdb.
    rewrite Hmod' in Hdb. lia.
  - intros [[Ea Eb] | [Ea [Eb Hs]]]; rewrite Eb; split; try lia.
    + replace (s + 65535) with (s + wa + 1 * 65535) by lia.
      rewrite Z.mod_add by lia. exact Hmod.
    + rewrite <- (Z.mod_add (s + 0) 1 65535) by lia.
      replace (s + 0 + 1 * 65535) with (s + wa) by lia. exact Hmod.
Qed.

Lemma Checksum_detects_word_change_witness :
  Checksum ([x08; x00] ++ xf7 :: xff :: [x00; x01]) = Some 0 <->
  (beWord xf7 xfe = 0 /\ beWord xf7 xff = 65535) \/
  (beWord xf7 xfe = 65535 /\ beWord xf7 xff = 0 /\
   ~ Forall (fun x => x = x00) ([x08; x00] ++ [x00; x01])).
Proof.
  apply (Checksum_detects_word_change 1 [x08; x00] [x00; x01] xf7 xfe xf7 xff).
  - reflexivity.
  - vm_compute. discriminate.
  - vm_compute. reflexivity.
  - vm_compute. discriminate.
Defined.

(** X5: the checksum of a message (of at most 131074 bytes) is [0xffff]
    exactly when every byte of it is zero; in particular that of the empty
    message. *)
Theorem Checksum_ffff_iff_zeros (b : bytes) (Hlen : len b <= 131074) :
  Checksum b = Some 65535 <-> Forall (fun x => x = x00) b.
Proof.
  pose proof (wordSum_fits b Hlen) as Hfit.
  rewrite <- wordSum_zero_iff, Checksum_closed, Z.mod_small by lia.
  unfold endAroundCarry.
  destruct (Z.eqb_spec (wordSum b) 0) as [H0 | H0].
  - split; [intros _; exact H0 | reflexivity].
  - pose proof (Z.mod_pos_bound (wordSum b - 1) 65535 ltac:(lia)).
    split; [intros Heq; apply Some_eq_inv in Heq; lia | contradiction].
Qed.

Lemma Checksum_ffff_iff_zeros_witness :
  Checksum [x00; x00; x00] = Some 65535 <->
  Forall (fun x => x = x00) [x00; x00; x00].
Proof.
  apply (Checksum_ffff_iff_zeros [x00; x00; x00]).
  vm_compute. discriminate.
Defined.

(** ** Further properties of Resolve, Addr and NewPinger *)

Lemma To4_length (ip ip4 : IP) : To4 ip = Some ip4 -> len ip4 = 4.
Proof.
  unfold To4.
  destruct (Z.eqb_spec (len ip) 4) as [H4 | H4].
  - intros Heq. injection Heq as <-. exact H4.
  - destruct (Z.eqb_spec (len ip) 16) as [H16 | H16]; cbn [andb];
      [| discriminate].
    destruct (isZeros (firstn 10 ip) && Byte.eqb (nth 10 ip x00) xff
              && Byte.eqb (nth 11 ip x00) xff); [| discriminate].
    intros Heq.
    assert (ip4 = firstn 4 (skipn 12 ip)) as -> by congruence.
    unfold len in *. rewrite length_firstn, length_skipn. lia.
Qed.

Lemma To16_only_length (ip : IP) :
  To16 ip <> None -> To4 ip = None -> len ip = 16.
Proof.
  unfold To16, To4.
  destruct (Z.eqb_spec (len ip) 4) as [H4 | H4]; [discriminate |].
  destruct (Z.eqb_spec (len ip) 16) as [H16 | H16]; [auto | contradiction].
Qed.

Lemma resolveIPv4_setTarget (p : Pinger) (a : IP) (n : string) (v : bool)
    (ips : list IP) :
  resolveIPv4 (setTarget p a n v) ips = resolveIPv4 p ips.
Proof.
  induction ips as [| ip ips IH]; cbn [resolveIPv4]; [reflexivity |].
  destruct (To4 ip); [reflexivity | exact IH].
Qed.

Lemma resolveIPv6_setTarget (p : Pinger) (a : IP) (n : string) (v : bool)
    (ips : list IP) :
  resolveIPv6 (setTarget p a n v) ips = resolveIPv6 p ips.
Proof.
  induction ips as [| ip ips IH]; cbn [resolveIPv6]; [reflexivity |].
  destruct (To16 ip); [reflexivity | exact IH].
Qed.

(** Every way in which [Resolve] ends. *)
Lemma Resolve_cases (L : string -> list IP + error) (p p' : Pinger)
    (e : option error) :
  Resolve L p = (p', e) ->
  (e <> None /\ p' = p) \/
  (e = None /\ exists a n v, p' = setTarget p a n v /\
     ((v = false /\ n = "ip4:icmp"%string /\ len a = 4) \/
      (v = true /\ n = "ip6:ipv6-icmp"%string /\ len a = 16 /\ To4 a = None))).
Proof.
  unfold Resolve. destruct (L (Host p)) as [ips | err].
  2: { intros Heq. injection Heq as <- <-. left. split; [discriminate | auto]. }
  destruct (resolveIPv4 p ips) as [q |] eqn:E4.
  - intros Heq. injection Heq as <- <-.
    apply resolveIPv4_Some in E4.
    destruct E4 as (pre & ip & post & ip4 & _ & _ & Hip & ->).
    right. split; [reflexivity |]. exists ip4, "ip4:icmp"%string, false.
    split; [reflexivity |]. left. repeat split. eapply To4_length; eassumption.
  - apply resolveIPv4_None in E4.
    destruct (resolveIPv6 p ips) as [q |] eqn:E6.
    + intros Heq. injection Heq as <- <-.
      apply resolveIPv6_Some in E6.
      destruct E6 as (pre & ip & post & -> & _ & Hip & ->).
      right. split; [reflexivity |]. exists ip, "ip6:ipv6-icmp"%string, true.
      split; [reflexivity |]. right.
      apply Forall_app in E4 as [_ E4]. inversion E4 as [| ? ? Hno4 _]; subst.
      assert (To4 ip = None) as H4.
      { unfold isIPv4Addr in Hno4. destruct (To4 ip); [| reflexivity].
        exfalso. apply Hno4. discriminate. }
      repeat split; [apply To16_only_length; assumption | exact H4].
    + intros Heq. injection Heq as <- <-. left. split; [discriminate | auto].
Qed.

Lemma Resolve_changes_only_target_frame (L : string -> list IP + error)
    (p p' : Pinger) (e : option error) :
  Resolve L p = (p', e) -> Host p' = Host p /\ id p' = id p.
Proof.
  intros Hres. apply Resolve_cases in Hres.
  destruct Hres as [[_ ->] | (_ & a & n & v & -> & _)]; auto.
Qed.

(** X6: a [Resolve] that fails leaves the session exactly as it was, and one
    that succeeds changes nothing but the target: the host name, the
    settings, the identifier, the counters and the stored round-trip times
    are those of before. *)
Theorem Resolve_changes_only_target (L : string -> list IP + error)
    (p p' : Pinger) (e : option error) (Hres : Resolve L p = (p', e)) :
  (e <> None -> p' = p) /\
  Host p' = Host p /\ Count p' = Count p /\ Interval p' = Interval p /\
  Timeout p' = Timeout p /\ PayloadSize p' = PayloadSize p /\
  Verbose p' = Verbose p /\ id p' = id p /\
  sent p' = sent p /\ received p' = received p /\ rtts p' = rtts p.
Proof.
  apply Resolve_cases in Hres.
  destruct Hres as [[He ->] | (-> & a & n & v & -> & _)].
  - repeat split; auto.
  - split; [intros Hne; contradiction | cbn; repeat split].
Qed.

Lemma Resolve_changes_only_target_witness :
  Host (fst (Resolve exLookup exPinger)) = Host exPinger /\
  id (fst (Resolve exLookup exPinger)) = id exPinger.
Proof.
  destruct (Resolve_changes_only_target exLookup exPinger
              (fst (Resolve exLookup exPinger)) (snd (Resolve exLookup exPinger)))
    as (_ & Hh & _ & _ & _ & _ & _ & Hid & _).
  - vm_compute. reflexivity.
  - split; [exact Hh | exact Hid].
Defined.

(** X7: after a [Resolve] that succeeds, the family, the network name and
    the address agree: either the family is IPv4, the network ["ip4:icmp"]
    and the address has 4 bytes (an IPv4-mapped address having been cut to
    its last four), or the family is IPv6, the network ["ip6:ipv6-icmp"] and
    the address has 16 bytes and is not an IPv4-mapped one. *)
Theorem Resolve_family_agrees (L : string -> list IP + error)
    (p p' : Pinger) (Hres : Resolve L p = (p', None)) :
  exists a, addr p' = Some a /\
    ((isIPv6 p' = false /\ network p' = "ip4:icmp"%string /\ len a = 4) \/
     (isIPv6 p' = true /\ network p' = "ip6:ipv6-icmp"%string /\
      len a = 16 /\ To4 a = None)).
Proof.
  apply Resolve_cases in Hres.
  destruct Hres as [[He _] | (_ & a & n & v & -> & Hfam)];
    [exfalso; apply He; reflexivity |].
  exists a. split; [reflexivity |]. cbn [isIPv6 network setTarget].
  destruct Hfam as [(-> & -> & Hl) | (-> & -> & Hl & H4)]; auto.
Qed.

Lemma Resolve_family_agrees_witness :
  exists a, addr (fst (Resolve exLookup exPinger)) = Some a /\
    ((isIPv6 (fst (Resolve exLookup exPinger)) = false /\
      network (fst (Resolve exLookup exPinger)) = "ip4:icmp"%string /\
      len a = 4) \/
     (isIPv6 (fst (Resolve exLookup exPinger)) = true /\
      network (fst (Resolve exLookup exPinger)) = "ip6:ipv6-icmp"%string /\
      len a = 16 /\ To4 a = None)).
Proof.
  apply (Resolve_family_agrees exLookup exPinger). vm_compute. reflexivity.
Defined.

(** X8: resolving again with the same answers of the resolver changes
    nothing: [Resolve] after [Resolve] gives the state and the error of the
    first. *)
Theorem Resolve_twice (L : string -> list IP + error) (p : Pinger) :
  Resolve L (fst (Resolve L p)) = Resolve L p.
Proof.
  destruct (Resolve L p) as [p' e] eqn:Hres. cbn [fst].
  apply Resolve_cases in Hres as Hcases.
  destruct Hcases as [[_ ->] | (-> & a & n & v & -> & _)]; [exact Hres |].
  unfold Resolve in *. cbn [Host setTarget].
  destruct (L (Host p)) as [ips | err]; [| discriminate].
  rewrite resolveIPv4_setTarget, resolveIPv6_setTarget.
  destruct (resolveIPv4 p ips) as [q4 |] eqn:E4.
  - injection Hres as Hq. rewrite <- Hq.
    apply resolveIPv4_Some in E4.
    destruct E4 as (? & ? & ? & ip4 & _ & _ & _ & ->). reflexivity.
  - destruct (resolveIPv6 p ips) as [q6 |] eqn:E6; [| discriminate].
    injection Hres as Hq. rewrite <- Hq.
    apply resolveIPv6_Some in E6.
    destruct E6 as (? & ip & ? & _ & _ & _ & ->). reflexivity.
Qed.

(** X9: [Addr] is the host name as long as no address was resolved, also
    after a [Resolve] that failed, and after a [Resolve] that succeeded it
    is the text of the selected address, of 4 or 16 bytes. *)
Theorem Addr_follows_Resolve (IPString : IP -> string)
    (L : string -> list IP + error) (p p' : Pinger) (e : option error)
    (Hfresh : addr p = None) (Hres : Resolve L p = (p', e)) :
  Addr IPString p = Host p /\
  match e with
  | Some _ => Addr IPString p' = Host p
  | None => exists a, addr p' = Some a /\ Addr IPString p' = IPString a /\
                      (len a = 4 \/ len a = 16)
  end.
Proof.
  split; [unfold Addr; rewrite Hfresh; reflexivity |].
  apply Resolve_cases in Hres.
  destruct Hres as [[He ->] | (-> & a & n & v & -> & Hfam)].
  - destruct e; [| exfalso; apply He; reflexivity].
    unfold Addr. rewrite Hfresh. reflexivity.
  - exists a. unfold Addr. cbn [addr setTarget].
    repeat split. destruct Hfam as [(_ & _ & Hl) | (_ & _ & Hl & _)]; auto.
Qed.

Lemma Addr_follows_Resolve_witness :
  Addr exIPString exPinger = Host exPinger /\
  exists a, addr (fst (Resolve exLookup exPinger)) = Some a /\
            Addr exIPString (fst (Resolve exLookup exPinger)) = exIPString a /\
            (len a = 4 \/ len a = 16).
Proof.
  apply (Addr_follows_Resolve exIPString exLookup exPinger
           (fst (Resolve exLookup exPinger)) None); vm_compute; reflexivity.
Defined.

Lemma To4_mapped (a : IP) : len a = 4 -> To4 (v4InV6Prefix ++ a) = Some a.
Proof.
  intros Ha.
  destruct a as [| a0 [| a1 [| a2 [| a3 [| a4 a]]]]];
    try (unfold len in Ha; cbn [List.length] in Ha; lia).
  reflexivity.
Qed.

(** X22: an IPv4-mapped IPv6 address ([::ffff:a.b.c.d], 16 bytes) counts as
    an IPv4 address: when the lookup returns it first, or after addresses
    that are not IPv4, [Resolve] selects its last four bytes and the family
    IPv4, although IPv6 addresses stand before it. *)
Theorem Resolve_mapped_address (L : string -> list IP + error) (p : Pinger)
    (pre post : list IP) (a : IP)
    (Hlookup : L (Host p) = inl (pre ++ (v4InV6Prefix ++ a) :: post))
    (Hpre : Forall (fun i => ~ isIPv4Addr i) pre)
    (Ha : len a = 4) :
  Resolve L p = (setTarget p a "ip4:icmp" false, None).
Proof.
  unfold Resolve. rewrite Hlookup.
  assert (resolveIPv4 p (pre ++ (v4InV6Prefix ++ a) :: post)
          = Some (setTarget p a "ip4:icmp" false)) as ->; [| reflexivity].
  clear Hlookup.
  induction Hpre as [| i pre Hi _ IH]; cbn [app resolveIPv4].
  - rewrite To4_mapped by exact Ha. reflexivity.
  - unfold isIPv4Addr in Hi. destruct (To4 i); [| exact IH].
    exfalso. apply Hi. discriminate.
Qed.

Lemma Resolve_mapped_address_witness :
  Resolve (fun _ => inl [[x20; x01; x0d; xb8; x00; x00; x00; x00;
                          x00; x00; x00; x00; x00; x00; x00; x01];
                         v4InV6Prefix ++ [xc0; x00; x02; x07]]) exPinger
  = (setTarget exPinger [xc0; x00; x02; x07] "ip4:icmp" false, None).
Proof.
  apply (Resolve_mapped_address _ exPinger
           [[x20; x01; x0d; xb8; x00; x00; x00; x00;
             x00; x00; x00; x00; x00; x00; x00; x01]] [] [xc0; x00; x02; x07]).
  - reflexivity.
  - constructor; [| constructor]. unfold isIPv4Addr. vm_compute.
    intros H. apply H. reflexivity.
  - reflexivity.
Defined.

(** ** Further properties of buildRequest, SendPing and Statistics *)

Lemma Uint64_PutUint64 (v : Z) (rest : bytes) :
  0 <= v < 2 ^ 64 -> Uint64 (PutUint64 v ++ rest) = v.
Proof.
  intros Hv. unfold Uint64, PutUint64.
  cbn [map app firstn fold_left].
  rewrite !u8_byte_of_Z, !Z.shiftr_div_pow2 by lia.
  change (8 * 7) with 56. change (8 * 6) with 48. change (8 * 5) with 40.
  change (8 * 4) with 32. change (8 * 3) with 24. change (8 * 2) with 16.
  change (8 * 1) with 8. change (8 * 0) with 0.
  change (2 ^ 0) with 1. rewrite Z.div_1_r.
  assert (forall k, 0 <= k ->
            (v / 2 ^ k) mod 256 = v / 2 ^ k - 256 * (v / 2 ^ (k + 8))) as Hbyte.
  { intros k Hk. rewrite Z.pow_add_r, <- Z.div_div by lia.
    change (2 ^ 8) with 256.
    pose proof (Z.div_mod (v / 2 ^ k) 256 ltac:(lia)). lia. }
  pose proof (Hbyte 0 ltac:(lia)) as H0. pose proof (Hbyte 8 ltac:(lia)) as H1.
  pose proof (Hbyte 16 ltac:(lia)) as H2. pose proof (Hbyte 24 ltac:(lia)) as H3.
  pose proof (Hbyte 32 ltac:(lia)) as H4. pose proof (Hbyte 40 ltac:(lia)) as H5.
  pose proof (Hbyte 48 ltac:(lia)) as H6. pose proof (Hbyte 56 ltac:(lia)) as H7.
  cbn [Z.add Pos.add Pos.succ Pos.add_carry] in H0, H1, H2, H3, H4, H5, H6, H7.
  change (2 ^ 0) with 1 in H0. rewrite Z.div_1_r in H0.
  assert (v / 2 ^ 64 = 0) as Htop by (apply Z.div_small; lia).
  rewrite Htop in H7.
  rewrite H0, H1, H2, H3, H4, H5, H6, H7. lia.
Qed.

Section SendPingMore.
Context `{C : icmp.Codec}.

(** What [buildRequest] has done when it returns. *)
Lemma buildRequest_returned (t : Z) (p : Pinger) (seq : Z) (v : bytes + error) :
  buildRequest t p seq = Returns v ->
  8 <= PayloadSize p /\
  v = icmp.Marshal
        (echoRequest p seq
           (PutUint64 (u64 t) ++ repeat x00 (Z.to_nat (PayloadSize p) - 8)))
        None.
Proof.
  intros Hret. unfold buildRequest, make, sliceTo in Hret.
  destruct (Z.ltb_spec (PayloadSize p) 0); [discriminate |].
  destruct (Z.ltb_spec maxAlloc (PayloadSize p)); [discriminate |].
  cbn [bind] in Hret. unfold len in Hret. rewrite repeat_length in Hret.
  destruct (Z.leb_spec 8 (Z.of_nat (Z.to_nat (PayloadSize p))));
    cbn [andb Z.leb Z.compare bind] in Hret; [| discriminate].
  split; [lia |].
  replace (Z.to_nat (PayloadSize p))
    with (8 + (Z.to_nat (PayloadSize p) - 8))%nat in Hret at 1 by lia.
  change 8%nat with (0 + 8)%nat in Hret at 2.
  rewrite repeat_app, skipn_app, repeat_length in Hret.
  cbn [Nat.add Nat.sub skipn repeat app] in Hret.
  unfold echoRequest. congruence.
Qed.

(** X10: whenever [buildRequest] returns, the payload size is at least 8
    and the value is what [Marshal] gives for an Echo message of the request
    type of the family, with code 0, the identifier of the session and the
    sequence number of the probe, whose payload has exactly the configured
    size, begins with the eight bytes of the clock value, high byte first,
    and is zero after them; and for a payload size from 8 to 65507 it does
    return. *)
Theorem buildRequest_payload (t : Z) (p : Pinger) (seq : Z) :
  (forall v,
      buildRequest t p seq = Returns v ->
      exists payload,
        v = icmp.Marshal (echoRequest p seq payload) None /\
        8 <= PayloadSize p /\
        len payload = PayloadSize p /\
        Uint64 payload = t mod 2 ^ 64 /\
        Forall (fun x => x = x00) (skipn 8 payload)) /\
  (8 <= PayloadSize p <= maxPayload ->
   exists v, buildRequest t p seq = Returns v).
Proof.
  split.
  - intros v Hret. apply buildRequest_returned in Hret.
    destruct Hret as [Hsize ->].
    exists (PutUint64 (u64 t) ++ repeat x00 (Z.to_nat (PayloadSize p) - 8)).
    split; [reflexivity |]. split; [exact Hsize |].
    split; [| split].
    + unfold len. rewrite length_app, repeat_length.
      cbn [PutUint64 map List.length]. lia.
    + apply Uint64_PutUint64. unfold u64. apply Z.mod_pos_bound. lia.
    + cbn [PutUint64 map app skipn]. apply Forall_forall.
      intros x Hx. apply repeat_spec in Hx. exact Hx.
  - intros Hsize. eexists. apply buildRequest_returns. exact Hsize.
Qed.

(** X11: when the packet was written, the first datagram that is a reply to
    the probe ends the call: the round-trip time reported and stored is the
    one measured at that read, whatever was read before it without being a
    reply and whatever would be read after it. *)
Theorem SendPing_first_reply_wins (w : World) (p : Pinger) (seq : Z)
    (data : bytes) (pre post : list ReadEvent) (d : bytes) (t : Z)
    (Hl : listen w = None)
    (Hb : buildRequest (now w) p seq = Returns (inl data))
    (Hw : write w = None)
    (Hreads : reads w = pre ++ ReadData d t :: post)
    (Hpre : Forall (noise p seq) pre)
    (Hm : matching p seq d) :
  SendPing w p seq = Returns (recordReply (incSent p) t, replied seq t).
Proof.
  unfold SendPing. rewrite Hl, Hb. cbn [bind]. rewrite Hw, Hreads.
  rewrite (receive_skips_noise (incSent p) seq pre) by exact Hpre.
  apply receive_accepts. exact Hm.
Qed.

Lemma SendPing_sameSettings (w : World) (p p' : Pinger) (seq : Z) (r : Result) :
  SendPing w p seq = Returns (p', r) -> sameSettings p p' /\ Seq r = seq.
Proof.
  intros Hret. apply SendPing_returns in Hret.
  assert (sameSettings p p) as Hsame by (unfold sameSettings; repeat split).
  destruct Hret as [(err & _ & -> & ->)
    | (_ & [(err & _ & -> & ->)
           | (data & _ & [(err & _ & -> & ->) | (_ & Hrecv)])])];
    try (split; [exact Hsame | reflexivity]).
  apply receive_returns in Hrecv.
  destruct Hrecv as (pre & post & _ &
    [(err & _ & -> & ->) | (d & t & _ & _ & -> & ->)]);
    (split; [unfold sameSettings; cbn; repeat split | reflexivity]).
Qed.

(** X12: a call of [SendPing] that returns has changed neither the host,
    the settings, the identifier nor the target of the session; its result
    carries the sequence number of the call, and is a reply without error,
    or has no reply and the round-trip time zero. *)
Theorem SendPing_keeps_settings (w : World) (p p' : Pinger) (seq : Z)
    (r : Result) (Hret : SendPing w p seq = Returns (p', r)) :
  sameSettings p p' /\ Seq r = seq /\
  (Received r = true -> Error r = None) /\
  (Received r = false -> RTT r = 0).
Proof.
  destruct (SendPing_sameSettings w p p' seq r Hret) as [Hsame Hseq].
  split; [exact Hsame |]. split; [exact Hseq |].
  apply SendPing_returns in Hret.
  destruct Hret as [(err & _ & _ & ->)
    | (_ & [(err & _ & _ & ->)
           | (data & _ & [(err & _ & _ & ->) | (_ & Hrecv)])])];
    try (cbn; split; [discriminate | reflexivity]).
  apply receive_returns in Hrecv.
  destruct Hrecv as (pre & post & _ &
    [(err & _ & _ & ->) | (d & t & _ & _ & _ & ->)]);
    cbn; split; auto; discriminate.
Qed.

(** X13: with a codec that reads the sequence number from the 16-bit field
    of the header, a probe whose sequence number does not fit 16 bits is
    never reported as received, whatever arrives: the reply to it carries
    the number cut to 16 bits, and the comparison with the uncut number
    fails. *)
Theorem SendPing_sequence_beyond_16_bits (w : World) (p p' : Pinger)
    (seq : Z) (r : Result)
    (Hcodec : reads16bit C)
    (Hseq : ~ 0 <= seq < 2 ^ 16)
    (Hret : SendPing w p seq = Returns (p', r)) :
  Received r = false /\ received p' = received p /\ rtts p' = rtts p.
Proof.
  apply SendPing_returns in Hret.
  destruct Hret as [(err & _ & -> & ->)
    | (_ & [(err & _ & -> & ->)
           | (data & _ & [(err & _ & -> & ->) | (_ & Hrecv)])])];
    try (cbn; auto).
  apply receive_returns in Hrecv.
  destruct Hrecv as (pre & post & _ &
    [(err & _ & -> & ->) | (d & t & _ & Hm & -> & ->)]);
    [cbn; auto |].
  exfalso. destruct Hm as (msg & echo & Hparse & _ & Hbody & _ & Hs).
  destruct (Hcodec _ _ _ _ Hparse Hbody) as [_ Hrange].
  apply Hseq. rewrite <- Hs. exact Hrange.
Qed.

(** X14: a call of [SendPing] that returns has added one to the received
    counter and its round-trip time to the end of the stored sequence when
    its result says received, and has left both as they were when not. *)
Theorem SendPing_records_replies (w : World) (p p' : Pinger) (seq : Z)
    (r : Result) (Hret : SendPing w p seq = Returns (p', r)) :
  if Received r
  then received p' = int64 (received p + 1) /\ rtts p' = rtts p ++ [RTT r]
  else received p' = received p /\ rtts p' = rtts p.
Proof.
  apply SendPing_effect in Hret. destruct Hret as (_ & _ & Er & Et).
  destruct (Received r); [auto |].
  rewrite app_nil_r in Et. auto.
Qed.

(** The settings of a session, its identifier among them, last for all its
    calls. *)
Lemma run_keeps_identity (cs : list Call) :
  forall (p p' : Pinger) (rs : list Result),
    run p cs = Returns (p', rs) -> Host p' = Host p /\ id p' = id p.
Proof.
  induction cs as [| c cs IH]; intros p p' rs Hrun.
  - cbn in Hrun. injection Hrun as <- <-. auto.
  - destruct c as [cnt itv tmo size vb | L | w seq |]; cbn [run] in Hrun.
    + apply IH in Hrun. exact Hrun.
    + apply IH in Hrun.
      destruct (Resolve L p) as [q e] eqn:Hres. cbn [fst] in Hrun.
      apply Resolve_changes_only_target_frame in Hres.
      destruct Hrun as [-> ->]. exact Hres.
    + destruct (SendPing w p seq) as [[p1 r] | |] eqn:Hping;
        cbn [bind fst snd] in Hrun; try discriminate.
      destruct (run p1 cs) as [[p2 rs2] | |] eqn:Hrest;
        cbn [bind fst snd] in Hrun; try discriminate.
      injection Hrun as <- <-.
      apply IH in Hrest. destruct Hrest as [-> ->].
      apply SendPing_returns in Hping.
      destruct Hping as [(err & _ & -> & _)
        | (_ & [(err & _ & -> & _)
               | (data & _ & [(err & _ & -> & _) | (_ & Hrecv)])])]; auto.
      apply receive_returns in Hrecv.
      destruct Hrecv as (pre & post & _ &
        [(err & _ & -> & _) | (d & t & _ & _ & -> & _)]); auto.
    + apply IH in Hrun. exact Hrun.
Qed.

(** X15: the identifier of a session is the low 16 bits of the process
    identifier, a number from 0 to 65535, and neither it nor the host name
    changes in any sequence of calls on the session. *)
Theorem session_identifier_16_bits (pid : Z) (host : string) (cs : list Call)
    (p : Pinger) (rs : list Result)
    (Hrun : run (NewPinger pid host) cs = Returns (p, rs)) :
  id p = pid mod 2 ^ 16 /\ 0 <= id p < 2 ^ 16 /\ Host p = host.
Proof.
  apply run_keeps_identity in Hrun. destruct Hrun as [Hh Hi].
  cbn [NewPinger Host id] in Hh, Hi.
  change 65535 with (Z.ones 16) in Hi. rewrite Z.land_ones in Hi by lia.
  rewrite Hi, Hh. repeat split; apply Z.mod_pos_bound; lia.
Qed.

End SendPingMore.

Lemma Uint16_range (hi lo : byte) : 0 <= Uint16 hi lo < 2 ^ 16.
Proof.
  unfold Uint16. pose proof (u8_range hi). pose proof (u8_range lo).
  rewrite lor_shiftl_8 by lia. lia.
Qed.

Lemma exampleCodec_reads16bit : reads16bit exampleCodec.
Proof.
  intros proto b msg echo Hparse Hbody.
  cbn [icmp.ParseMessage exampleCodec] in Hparse. unfold exampleParse in Hparse.
  destruct b as [| t [| c [| x [| y body]]]]; try discriminate.
  destruct (negb ((proto =? ProtocolICMP) || (proto =? ProtocolICMPv6)));
    [discriminate |].
  destruct (isEchoType _).
  - destruct body as [| i1 [| i0 [| s1 [| s0 data]]]]; try discriminate.
    assert (msg = {| icmp.Type_ := if proto =? ProtocolICMP
                                   then ICMPv4Type (u8 t) else ICMPv6Type (u8 t);
                     icmp.Code := u8 c;
                     icmp.Body := Some (icmp.EchoBody
                       {| icmp.ID := Uint16 i1 i0; icmp.Seq := Uint16 s1 s0;
                          icmp.Data := data |}) |}) as -> by congruence.
    cbn [icmp.Body] in Hbody.
    assert (echo = {| icmp.ID := Uint16 i1 i0; icmp.Seq := Uint16 s1 s0;
                      icmp.Data := data |}) as -> by congruence.
    cbn [icmp.ID icmp.Seq]. split; apply Uint16_range.
  - assert (msg = {| icmp.Type_ := if proto =? ProtocolICMP
                                   then ICMPv4Type (u8 t) else ICMPv6Type (u8 t);
                     icmp.Code := u8 c;
                     icmp.Body := Some (icmp.OtherBody body) |}) as Hmsg
      by congruence.
    exfalso. rewrite Hmsg in Hbody. cbn [icmp.Body] in Hbody. discriminate.
Qed.

Lemma buildRequest_payload_witness :
  (exists payload,
      inl (exRequest 1)
      = @icmp.Marshal exampleCodec (echoRequest exPinger 1 payload) None /\
      8 <= PayloadSize exPinger /\
      len payload = PayloadSize exPinger /\
      Uint64 payload = 1000 mod 2 ^ 64 /\
      Forall (fun x => x = x00) (skipn 8 payload)) /\
  (exists v, buildRequest (C := exampleCodec) 1000 exPinger 1 = Returns v).
Proof.
  split.
  - apply (proj1 (buildRequest_payload (C := exampleCodec) 1000 exPinger 1)).
    vm_compute. reflexivity.
  - apply (proj2 (buildRequest_payload (C := exampleCodec) 1000 exPinger 1)).
    vm_compute. split; discriminate.
Defined.

Lemma exStale_is_noise : noise (C := exampleCodec) exPinger 2 (ReadData exStale 500).
Proof.
  exists exStale, 500. split; [reflexivity |].
  intros (msg & echo & Hparse & _ & Hbody & _ & Hseq).
  vm_compute in Hparse.
  assert (icmp.Body msg = Some (icmp.EchoBody
            {| icmp.ID := 4660; icmp.Seq := 1;
               icmp.Data := icmp.Data echo |})) as Hb.
  { injection Hparse as <-. vm_compute in Hbody. injection Hbody as <-.
    reflexivity. }
  rewrite Hbody in Hb. injection Hb as Hecho. rewrite Hecho in Hseq.
  discriminate.
Qed.

Lemma exReply_is_matching : matching (C := exampleCodec) exPinger 2 exReply.
Proof.
  unfold matching.
  destruct (@icmp.ParseMessage exampleCodec (protocol exPinger)
              (firstn bufSize exReply)) as [msg | err] eqn:Hparse;
    [| vm_compute in Hparse; discriminate].
  exists msg. vm_compute in Hparse. injection Hparse as <-.
  eexists.
  split; [reflexivity |].
  split; [vm_compute; reflexivity |].
  split; [cbn [icmp.Body]; reflexivity |].
  split; vm_compute; reflexivity.
Qed.

Lemma SendPing_first_reply_wins_witness :
  SendPing (C := exampleCodec) exWorldReply exPinger 2
  = Returns (recordReply (incSent exPinger) 1200, replied 2 1200).
Proof.
  apply (SendPing_first_reply_wins (C := exampleCodec) exWorldReply exPinger 2
           (exRequest 2) [ReadData exStale 500] [ReadError exDeadline]
           exReply 1200).
  - reflexivity.
  - vm_compute. reflexivity.
  - reflexivity.
  - reflexivity.
  - constructor; [exact exStale_is_noise | constructor].
  - exact exReply_is_matching.
Defined.

Lemma SendPing_keeps_settings_witness :
  sameSettings exPinger (recordReply (incSent exPinger) 1200) /\
  Seq (replied 2 1200) = 2 /\
  (Received (replied 2 1200) = true -> Error (replied 2 1200) = None) /\
  (Received (replied 2 1200) = false -> RTT (replied 2 1200) = 0).
Proof.
  apply (SendPing_keeps_settings (C := exampleCodec) exWorldReply exPinger).
  vm_compute. reflexivity.
Defined.

Lemma SendPing_sequence_beyond_16_bits_witness :
  Received (timedOut 65538) = false /\
  received (incSent exPinger) = received exPinger /\
  rtts (incSent exPinger) = rtts exPinger.
Proof.
  apply (SendPing_sequence_beyond_16_bits (C := exampleCodec)
           exWorldEchoed exPinger (incSent exPinger) 65538 (timedOut 65538)).
  - exact exampleCodec_reads16bit.
  - vm_compute. intros [_ H]. discriminate.
  - vm_compute. reflexivity.
Defined.

Lemma SendPing_records_replies_witness :
  received (recordReply (incSent exPinger) 1200)
  = int64 (received exPinger + 1) /\
  rtts (recordReply (incSent exPinger) 1200) = rtts exPinger ++ [1200].
Proof.
  apply (SendPing_records_replies (C := exampleCodec) exWorldReply exPinger
           (recordReply (incSent exPinger) 1200) 2 (replied 2 1200)).
  vm_compute. reflexivity.
Defined.

Lemma session_identifier_16_bits_witness :
  id exSessionEnd = 4660 mod 2 ^ 16 /\ 0 <= id exSessionEnd < 2 ^ 16 /\
  Host exSessionEnd = "example.org"%string.
Proof.
  apply (session_identifier_16_bits (C := exampleCodec) 4660 "example.org"
           exSession exSessionEnd
           [replied 2 1200; timedOut 2;
            failed 3 (ErrWrite (SysError "sendto: network is unreachable"))]).
  vm_compute. reflexivity.
Defined.

(** ** Further properties of Statistics *)

Lemma minimum_In (t : Z) (ts : list Z) : In (minimum t ts) (t :: ts).
Proof.
  unfold minimum. induction ts as [| x ts IH]; cbn [fold_right]; [left; reflexivity |].
  destruct (Z.min_spec x (fold_right Z.min t ts)) as [[_ ->] | [_ ->]].
  - right. left. reflexivity.
  - destruct IH as [IH | IH]; [left; exact IH | right; right; exact IH].
Qed.

Lemma maximum_In (t : Z) (ts : list Z) : In (maximum t ts) (t :: ts).
Proof.
  unfold maximum. induction ts as [| x ts IH]; cbn [fold_right]; [left; reflexivity |].
  destruct (Z.max_spec x (fold_right Z.max t ts)) as [[_ ->] | [_ ->]].
  - destruct IH as [IH | IH]; [left; exact IH | right; right; exact IH].
  - right. left. reflexivity.
Qed.

Lemma minimum_maximum_bound (t : Z) (ts : list Z) :
  Forall (fun x => minimum t ts <= x <= maximum t ts) (t :: ts).
Proof.
  pose proof (minimum_le t ts). pose proof (maximum_ge t ts).
  constructor; [lia |].
  clear. unfold minimum, maximum.
  induction ts as [| x ts IH]; cbn [fold_right]; constructor; [lia |].
  eapply Forall_impl; [| exact IH]. cbv beta. intros y Hy. lia.
Qed.

Lemma sumZ_bounds (lo hi : Z) (l : list Z) :
  Forall (fun x => lo <= x <= hi) l ->
  len l * lo <= sumZ l <= len l * hi.
Proof.
  unfold len, sumZ. induction 1 as [| x l Hx _ IH]; cbn [fold_right List.length];
    [lia |].
  rewrite Nat2Z.inj_succ. lia.
Qed.

(** X16: when round-trip times are stored, the [Min] and the [Max] that
    [Statistics] returns are stored times, every stored time lies between
    them, and so does [Avg] when the sum of the times fits 64 bits. *)
Theorem Statistics_min_avg_max (p : Pinger)
    (Hsome : rtts p <> [])
    (Hsum : inInt (sumZ (rtts p))) :
  let s := Statistics p in
  In (Stats.Min s) (rtts p) /\ In (Stats.Max s) (rtts p) /\
  Forall (fun x => Stats.Min s <= x <= Stats.Max s) (rtts p) /\
  Stats.Min s <= Stats.Avg s <= Stats.Max s.
Proof.
  pose proof (Statistics_fields p) as Hf. cbv zeta in Hf |- *.
  destruct Hf as (_ & _ & _ & _ & Htimes).
  destruct (rtts p) as [| t ts] eqn:Hr; [contradiction |].
  destruct Htimes as (-> & -> & ->).
  pose proof (minimum_maximum_bound t ts) as Hall.
  split; [apply minimum_In |]. split; [apply maximum_In |].
  split; [exact Hall |].
  rewrite int64_id by exact Hsum.
  apply sumZ_bounds in Hall.
  assert (0 < len (t :: ts)) by (unfold len; cbn [List.length]; lia).
  split.
  - apply Z.quot_le_lower_bound; lia.
  - apply Z.quot_le_upper_bound; lia.
Qed.

Lemma Statistics_min_avg_max_witness :
  In (Stats.Min (Statistics exSessionEnd)) (rtts exSessionEnd) /\
  In (Stats.Max (Statistics exSessionEnd)) (rtts exSessionEnd) /\
  Forall (fun x => Stats.Min (Statistics exSessionEnd) <= x
                   <= Stats.Max (Statistics exSessionEnd)) (rtts exSessionEnd) /\
  Stats.Min (Statistics exSessionEnd) <= Stats.Avg (Statistics exSessionEnd)
  <= Stats.Max (Statistics exSessionEnd).
Proof.
  apply (Statistics_min_avg_max exSessionEnd).
  - vm_compute. discriminate.
  - vm_compute. split; discriminate.
Defined.

(** ** Properties of the command line and of the probe loop of main *)

Lemma isFlag_dec (arg : string) : isFlag arg \/ ~ isFlag arg.
Proof.
  unfold isFlag. destruct (String.prefix "-" arg); [left | right];
    [reflexivity | discriminate].
Qed.

(** The loop stops at the first argument that is no flag. *)
Lemma findHost_found (pre : list string) :
  forall seen h post,
    Forall isFlag pre -> ~ isFlag h ->
    findHost seen (pre ++ h :: post) = (h, seen ++ pre ++ post).
Proof.
  induction pre as [| f pre IH]; intros seen h post Hpre Hh.
  - cbn [app findHost]. unfold isFlag in Hh.
    destruct (String.prefix "-" h); [exfalso; apply Hh; reflexivity |].
    reflexivity.
  - inversion Hpre as [| ? ? Hf Hpre']; subst.
    cbn [app findHost]. unfold isFlag in Hf. rewrite Hf. cbn [negb].
    rewrite IH by assumption. rewrite <- app_assoc. reflexivity.
Qed.

Lemma findHost_none (args : list string) :
  forall seen, Forall isFlag args -> findHost seen args = (EmptyString, []).
Proof.
  induction args as [| f args IH]; intros seen Hall; [reflexivity |].
  inversion Hall as [| ? ? Hf Hall']; subst.
  cbn [findHost]. unfold isFlag in Hf. rewrite Hf. cbn [negb].
  apply IH. exact Hall'.
Qed.

(** The arguments are all flags, or split at the first one that is none. *)
Lemma args_split (args : list string) :
  Forall isFlag args \/
  exists pre h post, args = pre ++ h :: post /\ Forall isFlag pre /\ ~ isFlag h.
Proof.
  induction args as [| a args IH]; [left; constructor |].
  destruct (isFlag_dec a) as [Ha | Ha].
  - destruct IH as [Hall | (pre & h & post & -> & Hpre & Hh)].
    + left. constructor; assumption.
    + right. exists (a :: pre), h, post. repeat split; auto.
  - right. exists [], a, args. repeat split; auto.
Qed.

(** X17: the search for the host at the start of [main], before any flag
    is parsed.  The host is the first argument that does not begin with
    ["-"], wherever it stands, and all the other arguments are handed, in
    their order, to the flag parser; the search ends the program (usage,
    exit status 1) without reaching the flag parser exactly when every
    argument begins with ["-"] (or there is none), or when the first that
    does not is the empty string. *)
Theorem hostAndFlags_first_non_flag (args : list string) :
  (forall h flags,
      hostAndFlags args = Some (h, flags) <->
      exists pre post,
        args = pre ++ h :: post /\ Forall isFlag pre /\ ~ isFlag h /\
        h <> EmptyString /\ flags = pre ++ post) /\
  (hostAndFlags args = None <->
   Forall isFlag args \/
   exists pre post, args = pre ++ EmptyString :: post /\ Forall isFlag pre).
Proof.
  unfold hostAndFlags.
  destruct (args_split args) as [Hall | (pre & h0 & post & -> & Hpre & Hh0)].
  - rewrite (findHost_none args [] Hall). cbn [String.eqb].
    split.
    + intros h flags. split; [discriminate |].
      intros (pre & post & -> & _ & Hh & _).
      apply Forall_app in Hall as [_ Hall]. inversion Hall; contradiction.
    + split; [intros _; left; exact Hall | reflexivity].
  - rewrite (findHost_found pre [] h0 post Hpre Hh0). cbn [app].
    assert (forall pre' h' post',
              pre ++ h0 :: post = pre' ++ h' :: post' ->
              Forall isFlag pre' -> ~ isFlag h' ->
              pre' = pre /\ h' = h0 /\ post' = post) as Huniq.
    { clear - Hpre Hh0. induction pre as [| f pre IH]; intros pre' h' post' Heq Hp' Hh'.
      - destruct pre' as [| f' pre']; cbn [app] in Heq.
        + injection Heq as <- <-. auto.
        + injection Heq as <- _. inversion Hp'; contradiction.
      - inversion Hpre as [| ? ? Hf Hpre']; subst.
        destruct pre' as [| f' pre']; cbn [app] in Heq.
        + injection Heq as <- _. contradiction.
        + injection Heq as <- Heq. inversion Hp' as [| ? ? _ Hp'']; subst.
          destruct (IH Hpre' pre' h' post' Heq Hp'' Hh') as (-> & -> & ->).
          auto. }
    destruct (String.eqb_spec h0 EmptyString) as [-> | Hne].
    + split.
      * intros h flags. split; [discriminate |].
        intros (pre' & post' & Heq & Hp' & Hh' & Hne' & _).
        destruct (Huniq pre' h post' Heq Hp' Hh') as (_ & -> & _).
        contradiction.
      * split; [| reflexivity].
        intros _. right. exists pre, post. auto.
    + split.
      * intros h flags. split.
        -- intros Heq. injection Heq as <- <-. exists pre, post. auto.
        -- intros (pre' & post' & Heq & Hp' & Hh' & _ & ->).
           destruct (Huniq pre' h post' Heq Hp' Hh') as (-> & -> & ->).
           reflexivity.
      * split; [discriminate |].
        intros [Hall | (pre' & post' & Heq & Hp')].
        -- apply Forall_app in Hall as [_ Hall]. inversion Hall; contradiction.
        -- assert (~ isFlag EmptyString) as He by (unfold isFlag; discriminate).
           destruct (Huniq pre' EmptyString post' Heq Hp' He) as (_ & <- & _).
           contradiction.
Qed.

Lemma hostAndFlags_first_non_flag_witness :
  exists pre post,
    ["-v"; "example.org"; "-c"; "5"]%string = pre ++ "example.org"%string :: post /\
    Forall isFlag pre /\ ~ isFlag "example.org" /\
    "example.org"%string <> EmptyString /\
    ["-v"; "-c"; "5"]%string = pre ++ post.
Proof.
  apply (proj1 (hostAndFlags_first_non_flag ["-v"; "example.org"; "-c"; "5"]%string)
           "example.org"%string ["-v"; "-c"; "5"]%string).
  reflexivity.
Defined.

(** X18: the search for the host does not tell the value of a flag from
    the host: for arguments that begin with a flag followed by a non-empty
    argument that does not begin with ["-"], it takes that argument as the
    host, also when it was written as the value of the flag, and gives the
    flag parser the flag followed by what comes after it. *)
Theorem hostAndFlags_value_before_host (f v : string) (rest : list string)
    (Hf : isFlag f) (Hv : ~ isFlag v) (Hne : v <> EmptyString) :
  hostAndFlags (f :: v :: rest) = Some (v, f :: rest).
Proof.
  unfold hostAndFlags.
  change (f :: v :: rest) with ([f] ++ v :: rest).
  rewrite (findHost_found [f] [] v rest) by (auto; constructor; auto).
  cbn [app].
  destruct (String.eqb_spec v EmptyString) as [-> | _]; [contradiction |].
  reflexivity.
Qed.

Lemma hostAndFlags_value_before_host_witness :
  hostAndFlags ["-c"; "10"; "google.com"]%string
  = Some ("10"%string, ["-c"; "google.com"]%string).
Proof.
  apply (hostAndFlags_value_before_host "-c" "10" ["google.com"%string]).
  - reflexivity.
  - unfold isFlag. discriminate.
  - discriminate.
Defined.

Lemma seqFrom_length (s : Z) (n : nat) : List.length (seqFrom s n) = n.
Proof.
  revert s. induction n as [| n IH]; intros s; cbn [seqFrom List.length];
    [reflexivity |].
  rewrite IH. reflexivity.
Qed.

Lemma probeCalls_length (env : list (World * bool)) :
  forall s, List.length (probeCalls s env) = List.length env.
Proof.
  induction env as [| [w stop] rest IH]; intros s; cbn [probeCalls List.length];
    [reflexivity |].
  rewrite IH. reflexivity.
Qed.

Lemma Resolve_keeps_Count (L : string -> list IP + error) (p p' : Pinger)
    (e : option error) :
  Resolve L p = (p', e) -> Count p' = Count p.
Proof.
  intros Hres. apply Resolve_cases in Hres.
  destruct Hres as [[_ ->] | (_ & a & n & v & -> & _)]; reflexivity.
Qed.

Section ProbeLoop.
Context `{C : icmp.Codec}.

Lemma probeLoop_done (p : Pinger) (s : Z) (env : list (World * bool)) :
  (Count p >=? 0) && (s >? Count p) = true ->
  probeLoop p s env = Returns (p, []).
Proof.
  intros Hc. destruct env as [| [w stop] rest]; cbn [probeLoop];
    rewrite Hc; reflexivity.
Qed.

(** What the loop has done when it returns. *)
Lemma probeLoop_returns (env : list (World * bool)) :
  forall (p : Pinger) (s : Z) (p' : Pinger) (rs : list Result),
    1 <= s -> s + len env <= maxInt ->
    probeLoop p s env = Returns (p', rs) ->
    Count p' = Count p /\
    map Seq rs = seqFrom s (List.length rs) /\
    run p (probeCalls s (firstn (List.length rs) env)) = Returns (p', rs) /\
    (List.length rs <= List.length env)%nat /\
    (0 <= Count p -> len rs <= Z.max 0 (Count p - s + 1)) /\
    (0 <= Count p -> Forall (fun e => snd e = false) env ->
     len rs = Z.max 0 (Count p - s + 1)) /\
    (Count p < 0 ->
     exists pre w post,
       env = pre ++ (w, true) :: post /\
       Forall (fun e => snd e = false) pre /\
       List.length rs = S (List.length pre)).
Proof.
  induction env as [| [w stop] rest IH]; intros p s p' rs Hs Hmax Hloop.
  - cbn [probeLoop] in Hloop.
    destruct ((Count p >=? 0) && (s >? Count p)) eqn:Hc; [| discriminate].
    injection Hloop as <- <-.
    apply andb_prop in Hc as [Hc1 Hc2].
    rewrite Z.geb_leb in Hc1. rewrite Z.gtb_ltb in Hc2.
    apply Z.leb_le in Hc1. apply Z.ltb_lt in Hc2.
    unfold len. cbn. repeat split; try lia.
  - destruct ((Count p >=? 0) && (s >? Count p)) eqn:Hc.
    + rewrite probeLoop_done in Hloop by exact Hc.
      injection Hloop as <- <-.
      apply andb_prop in Hc as [Hc1 Hc2].
      rewrite Z.geb_leb in Hc1. rewrite Z.gtb_ltb in Hc2.
      apply Z.leb_le in Hc1. apply Z.ltb_lt in Hc2.
      unfold len. cbn. repeat split; try lia.
    + cbn [probeLoop] in Hloop. rewrite Hc in Hloop.
      assert (Count p < 0 \/ s <= Count p) as Hgo.
      { apply andb_false_iff in Hc as [Hc | Hc].
        - rewrite Z.geb_leb in Hc. apply Z.leb_gt in Hc. lia.
        - rewrite Z.gtb_ltb in Hc. apply Z.ltb_ge in Hc. lia. }
      destruct (SendPing w p s) as [[p1 r] | |] eqn:Hping;
        cbn [bind fst snd] in Hloop; try discriminate.
      destruct (SendPing_sameSettings w p p1 s r Hping)
        as [(_ & Hcount & _) Hseq].
      assert (len ((w, stop) :: rest) = len rest + 1) as Hlen
        by (unfold len; cbn [List.length]; lia).
      rewrite Hlen in Hmax.
      assert (0 <= len rest) by (unfold len; lia).
      rewrite int64_id in Hloop by (unfold inInt, minInt, maxInt in *; lia).
      rewrite Hcount in Hloop.
      destruct (((Count p <? 0) || (s + 1 <=? Count p)) && stop) eqn:Hstop.
      * injection Hloop as <- <-.
        apply andb_prop in Hstop as [_ ->].
        cbn [List.length firstn probeCalls run map seqFrom].
        rewrite Hping. cbn [bind fst snd].
        unfold len. cbn [List.length].
        repeat split; try lia; try congruence.
        -- intros _ Hall. inversion Hall as [| ? ? Hfalse _]; subst.
           cbn in Hfalse. discriminate.
        -- intros _. exists [], w, rest. repeat split. constructor.
      * destruct (probeLoop p1 (s + 1) rest) as [[p2 rs2] | |] eqn:Hrest;
          cbn [bind fst snd] in Hloop; try discriminate.
        injection Hloop as <- <-.
        apply IH in Hrest; [| lia | lia].
        rewrite Hcount in Hrest.
        destruct Hrest as (Hc2 & Hseqs & Hrun & Hle & Hbound & Hexact & Hinf).
        cbn [List.length firstn probeCalls run map seqFrom].
        rewrite Hping. cbn [bind fst snd]. rewrite Hrun. cbn [bind fst snd].
        assert (len (r :: rs2) = len rs2 + 1) as Hl
          by (unfold len; cbn [List.length]; lia).
        rewrite Hl.
        split; [exact Hc2 |]. split; [congruence |].
        split; [reflexivity |]. split; [lia |].
        split; [| split].
        -- intros Hnn. specialize (Hbound Hnn). lia.
        -- intros Hnn Hall. inversion Hall as [| ? ? _ Hall']; subst.
           specialize (Hexact Hnn Hall'). lia.
        -- intros Hneg. destruct (Hinf Hneg) as (pre & w' & post & -> & Hpre & Hn).
           assert (stop = false) as ->.
           { apply andb_false_iff in Hstop as [Hstop | Hstop]; [| exact Hstop].
             apply orb_false_iff in Hstop as [Hstop _].
             apply Z.ltb_ge in Hstop. lia. }
           exists ((w, false) :: pre), w', post.
           repeat split; [constructor; auto | cbn [List.length]; lia].
Qed.

(** X19: with a count that is not negative, the probe loop of [main] issues
    at most that many probes, numbered 1, 2, 3, ... without a gap, and
    exactly that many when no stop signal arrives; with the count 0 it
    issues none. *)
Theorem probeLoop_counts_probes (p p' : Pinger) (env : list (World * bool))
    (rs : list Result)
    (Hcount : 0 <= Count p)
    (Hlen : len env < maxInt)
    (Hloop : probeLoop p 1 env = Returns (p', rs)) :
  map Seq rs = seqFrom 1 (List.length rs) /\
  len rs <= Count p /\
  (Forall (fun e => snd e = false) env -> len rs = Count p).
Proof.
  apply probeLoop_returns in Hloop; [| lia | lia].
  destruct Hloop as (_ & Hseqs & _ & _ & Hbound & Hexact & _).
  specialize (Hbound Hcount).
  split; [exact Hseqs |]. split; [lia |].
  intros Hall. specialize (Hexact Hcount Hall). lia.
Qed.

(** X20: with a negative count ([-c -1] or [-t]) the probe loop of [main]
    returns only on the stop signal: when it returns, the signal has arrived
    in the pause after its last probe and in no pause before, and the probes
    are numbered 1, 2, 3, ... without a gap. *)
Theorem probeLoop_endless_until_stop (p p' : Pinger)
    (env : list (World * bool)) (rs : list Result)
    (Hcount : Count p < 0)
    (Hlen : len env < maxInt)
    (Hloop : probeLoop p 1 env = Returns (p', rs)) :
  map Seq rs = seqFrom 1 (List.length rs) /\
  exists pre w post,
    env = pre ++ (w, true) :: post /\
    Forall (fun e => snd e = false) pre /\
    List.length rs = S (List.length pre).
Proof.
  apply probeLoop_returns in Hloop; [| lia | lia].
  destruct Hloop as (_ & Hseqs & _ & _ & _ & _ & Hinf).
  split; [exact Hseqs | exact (Hinf Hcount)].
Qed.

(** X21: the statistics that [main] prints.  After [NewPinger], the
    settings of the command line, a [Resolve] that succeeds and the probe
    loop, the counters are consistent, [Statistics] reports as sent the
    number of probes that were written and as received the number that were
    answered, and with a count that is not negative it never reports more
    sent than the count. *)
Theorem main_statistics (pid : Z) (host : string)
    (cnt interval timeout size : Z) (verbose : bool)
    (L : string -> list IP + error) (p1 p' : Pinger)
    (env : list (World * bool)) (rs : list Result)
    (Hres : Resolve L (configure (NewPinger pid host) cnt interval timeout
                         size verbose) = (p1, None))
    (Hlen : len env < maxInt - 2)
    (Hloop : probeLoop p1 1 env = Returns (p', rs)) :
  counters_ok p' /\
  Stats.Sent (Statistics p') = count transmitted rs /\
  Stats.Received (Statistics p') = count Received rs /\
  Stats.Lost (Statistics p') = count transmitted rs - count Received rs /\
  (0 <= cnt -> Stats.Sent (Statistics p') <= cnt).
Proof.
  pose proof (Resolve_keeps_Count L _ _ _ Hres) as Hc.
  cbn [configure Count] in Hc.
  apply probeLoop_returns in Hloop; [| lia | lia].
  destruct Hloop as (_ & _ & Hrun & Hle & Hbound & _).
  rewrite Hc in Hbound.
  set (cs := CallConfigure cnt interval timeout size verbose
             :: CallResolve L
             :: probeCalls 1 (firstn (List.length rs) env)).
  assert (run (NewPinger pid host) cs = Returns (p', rs)) as Hsession.
  { unfold cs. cbn [run]. rewrite Hres. cbn [fst]. exact Hrun. }
  assert (len cs <= maxInt) as Hcs.
  { unfold cs, len in *. cbn [List.length].
    rewrite probeCalls_length, length_firstn. lia. }
  destruct (session_counters pid host cs p' rs Hcs Hsession)
    as (Hs & Hr & Ht & Hk & Hn).
  pose proof (Statistics_fields p') as Hf. cbv zeta in Hf.
  destruct Hf as (Fs & Fr & Fl & _).
  rewrite Fs, Fr, Fl, Hs, Hr.
  split.
  - unfold counters_ok. rewrite Hs, Hr, Ht. unfold count, len in *.
    rewrite length_map. lia.
  - repeat split; try reflexivity.
    + apply int64_id. unfold inInt, minInt, maxInt in *. lia.
    + intros Hnn. specialize (Hbound Hnn). lia.
Qed.

End ProbeLoop.

Lemma probeLoop_counts_probes_witness :
  map Seq exLoopResults = seqFrom 1 (List.length exLoopResults) /\
  len exLoopResults <= Count exConfigured /\
  (Forall (fun e => snd e = false) exLoopEnv ->
   len exLoopResults = Count exConfigured).
Proof.
  apply (probeLoop_counts_probes (C := exampleCodec) exConfigured exLoopEnd
           exLoopEnv exLoopResults).
  - vm_compute. discriminate.
  - vm_compute. reflexivity.
  - vm_compute. reflexivity.
Defined.

Lemma probeLoop_endless_until_stop_witness :
  map Seq [replied 1 500; timedOut 2]
  = seqFrom 1 (List.length [replied 1 500; timedOut 2]) /\
  exists pre w post,
    exStoppedEnv = pre ++ (w, true) :: post /\
    Forall (fun e => snd e = false) pre /\
    List.length [replied 1 500; timedOut 2] = S (List.length pre).
Proof.
  apply (probeLoop_endless_until_stop (C := exampleCodec) exEndless
           exStoppedEnd exStoppedEnv [replied 1 500; timedOut 2]).
  - vm_compute. reflexivity.
  - vm_compute. reflexivity.
  - vm_compute. reflexivity.
Defined.

Lemma main_statistics_witness :
  counters_ok exLoopEnd /\
  Stats.Sent (Statistics exLoopEnd) = count transmitted exLoopResults /\
  Stats.Received (Statistics exLoopEnd) = count Received exLoopResults /\
  Stats.Lost (Statistics exLoopEnd)
  = count transmitted exLoopResults - count Received exLoopResults /\
  (0 <= 3 -> Stats.Sent (Statistics exLoopEnd) <= 3).
Proof.
  apply (main_statistics (C := exampleCodec) 4660 "example.org"
           3 Second DefaultTimeout 56 false exLookup exConfigured exLoopEnd
           exLoopEnv exLoopResults).
  - vm_compute. reflexivity.
  - vm_compute. reflexivity.
  - vm_compute. reflexivity.
Defined.
